(** * Rankinator: the Glicko-2 rating engine and the matchmaker

    A shallow embedding of [utils/math.ts] ([calculateNewStats]),
    [utils/rankingSystem.ts] ([processMatch]) and [utils/matchmaking.ts]
    ([getNextMatchup]), with the properties of the specification stated
    and proved over it.

    Modelling conventions.
    - A JavaScript [number] of the rating engine is idealised as a real
      number ([R]): [Math.exp], [Math.log], [Math.sqrt] and [Math.PI] are
      [exp], [ln], [sqrt] and [PI].  Rounding, overflow and NaN are not
      modelled.
    - The two [while] loops of [calculateNewStats] have no bound in the
      source.  They are recursive functions on a fuel argument that counts
      evaluations of the loop condition; [None] means that the loop is
      still running when the fuel is used up.
    - The matchmaker only subtracts, takes absolute values and compares.
      It is written once over an interface of numbers ([JsNum]) with an
      executable instance on the rationals and one on the reals.
    - [matches] is an integer counter ([Z]).
    - The two calls of [Math.random()] in [getNextMatchup] are two
      arguments [u1] and [u2] of the embedding. *)

From Stdlib Require Import Reals Lra Lia ZArith QArith Qround Qabs.
From Stdlib Require Import List String Bool Permutation Sorted.
Import ListNotations.

(** ** types.ts *)

Module Types.

Record RankedItem (num : Type) : Type := mkRankedItem {
  id : string;
  name : string;
  image : option string;
  rating : num;
  rd : num;
  vol : num;
  matches : Z
}.

Arguments mkRankedItem {num}.
Arguments id {num}.
Arguments name {num}.
Arguments image {num}.
Arguments rating {num}.
Arguments rd {num}.
Arguments vol {num}.
Arguments matches {num}.

End Types.

(** ** The numbers of the matchmaker *)

Class JsNum (num : Type) : Type := {
  nsub : num -> num -> num;          (* x - y *)
  nabs : num -> num;                 (* Math.abs(x) *)
  nleb : num -> num -> bool;         (* x <= y *)
  npos : num -> bool;                (* x > 0 *)
  nofZ : Z -> num                    (* an integer as a number *)
}.

#[export] Instance QNum : JsNum Q := {
  nsub := Qminus;
  nabs := Qabs;
  nleb := Qle_bool;
  npos := fun x => negb (Qle_bool x 0);
  nofZ := inject_Z
}.

#[export] Instance RNum : JsNum R := {
  nsub := Rminus;
  nabs := Rabs;
  nleb := fun x y => if Rle_dec x y then true else false;
  npos := fun x => if Rlt_dec 0 x then true else false;
  nofZ := IZR
}.

(** What the sort of the matchmaker needs of the numbers: the sign test
  of a difference is a strict weak order, and integers embed with their
  sign.  Finite numbers have these properties; NaN does not. *)
Class JsNumLaws (num : Type) {N : JsNum num} : Prop := {
  npos_asym : forall x y, npos (nsub x y) = true -> npos (nsub y x) = false;
  npos_trans : forall x y z,
    npos (nsub x y) = false -> npos (nsub y z) = false ->
    npos (nsub x z) = false;
  npos_ofZ : forall z, npos (nofZ z) = (0 <? z)%Z
}.

(** ** Arrays *)

Module JsArray.

Section Sort.
Context {A num : Type} {N : JsNum num}.
Variable compareFn : A -> A -> num.

(** [Array.prototype.sort] is stable: an element moves behind exactly
    the elements the comparator puts strictly before it. *)
Fixpoint insert (x : A) (l : list A) : list A :=
  match l with
  | [] => [x]
  | y :: l' => if npos (compareFn x y) then y :: insert x l' else x :: l
  end.

Definition sort (l : list A) : list A := fold_right insert [] l.

(** The comparator does not put [x] behind [y]. *)
Definition notAfter (x y : A) : Prop := npos (compareFn x y) = false.
End Sort.

(** [arr[i]] for a number [i] that is an integer: [None] is
    [undefined]. *)
Definition get {A : Type} (l : list A) (i : Z) : option A :=
  if (i <? 0)%Z then None else nth_error l (Z.to_nat i).

(** [Math.floor(u * n)] for the random number [u]. *)
Definition randomIndex (u : Q) (n : nat) : Z :=
  Qfloor (u * inject_Z (Z.of_nat n)).

End JsArray.

(** ** utils/matchmaking.ts *)

Module Matchmaking.
Import Types.

(** The result of a call: [null], the pair (whose second component is
    [undefined] when the index is out of range), or the [TypeError] of
    reading [candidateA.id] on [undefined]. *)
Inductive Matchup (num : Type) : Type :=
| Null
| Pair (candidateA : RankedItem num) (candidateB : option (RankedItem num))
| TypeError.

Arguments Null {num}.
Arguments Pair {num}.
Arguments TypeError {num}.

Section WithNumbers.
Context {num : Type} {N : JsNum num}.

Local Abbreviation Item := (RankedItem num).

Definition compareNeed (a b : Item) : num :=
  if (matches a =? matches b)%Z
  then nsub (rd b) (rd a)
  else nofZ (matches a - matches b).

Definition sortedByNeed (items : list Item) : list Item :=
  JsArray.sort compareNeed items.

Definition idealRatingDiff : num := nofZ 100.

Definition potentialOpponents (items : list Item) (candidateA : Item)
  : list Item :=
  filter (fun item => negb (String.eqb (id item) (id candidateA))) items.

Definition isClose (candidateA item : Item) : bool :=
  nleb (nabs (nsub (rating item) (rating candidateA))) idealRatingDiff.

Definition compareDistance (candidateA a b : Item) : num :=
  nsub (nabs (nsub (rating a) (rating candidateA)))
         (nabs (nsub (rating b) (rating candidateA))).

Definition closeOpponents (items : list Item) (candidateA : Item)
  : list Item :=
  let potential := potentialOpponents items candidateA in
  let close := filter (isClose candidateA) potential in
  if (List.length close =? 0)%nat
  then firstn 3 (JsArray.sort (compareDistance candidateA) potential)
  else close.

(** The ranking by need in the words of the specification: ascending
    [matches], ties broken by descending [rd]. *)
Definition rankedBefore (a b : Item) : Prop :=
  (matches a < matches b)%Z \/
  (matches a = matches b /\ npos (nsub (rd b) (rd a)) = false).

(** A random number is in [[0, 1)]. *)
Definition isRandom (u : Q) : Prop := (0 <= u)%Q /\ (u < 1)%Q.

Definition getNextMatchup (items : list Item) (u1 u2 : Q) : Matchup num :=
  if (List.length items <? 2)%nat then Null
  else
      let sorted := sortedByNeed items in
      let candidateIndex :=
        JsArray.randomIndex u1 (Nat.min 3 (List.length sorted)) in
      match JsArray.get sorted candidateIndex with
      | None => TypeError
      | Some candidateA =>
        let opponents := closeOpponents items candidateA in
        let candidateB :=
          JsArray.get opponents
            (JsArray.randomIndex u2 (List.length opponents)) in
        Pair candidateA candidateB
      end.

End WithNumbers.

End Matchmaking.

(** ** utils/math.ts *)

Module GlickoMath.

Local Open Scope R_scope.

Definition TAU : R := 0.5.

Definition GLICKO_SCALE : R := 173.7178.

Record GlickoPlayer : Type := mkGlickoPlayer {
  rating : R;
  rd : R;
  vol : R
}.

Record GlickoScaled : Type := mkGlickoScaled {
  mu : R;
  phi : R;
  sigma : R
}.

(** The type [0 | 0.5 | 1] of the score argument. *)
Inductive Score : Type := Loss | Draw | Win.

Definition scoreValue (score : Score) : R :=
  match score with
  | Loss => 0
  | Draw => 0.5
  | Win => 1
  end.

Definition toGlickoScale (player : GlickoPlayer) : GlickoScaled :=
  {| mu := (rating player - 1500) / GLICKO_SCALE;
     phi := rd player / GLICKO_SCALE;
     sigma := vol player |}.

Definition toStandardScale (mu phi sigma : R) : GlickoPlayer :=
  {| rating := mu * GLICKO_SCALE + 1500;
     rd := phi * GLICKO_SCALE;
     vol := sigma |}.

Definition g (phi : R) : R :=
  1 / sqrt (1 + (3 * phi ^ 2) / PI ^ 2).

Definition E (mu mu_j phi_j : R) : R :=
  1 / (1 + exp (- g phi_j * (mu - mu_j))).

(** The closure [f] of [calculateNewStats], with the variables it
    captures as arguments. *)
Definition f (delta phi v a : R) (x : R) : R :=
  let eX := exp x in
  let term1 :=
    (eX * (delta ^ 2 - phi ^ 2 - v - eX)) /
    (2 * (phi ^ 2 + v + eX) ^ 2) in
  let term2 := (x - a) / TAU ^ 2 in
  term1 - term2.

(** [while (f(a - k * TAU) < 0) k += 1], returning the final [k]. *)
Fixpoint bracketLoop (fuel : nat) (f : R -> R) (a : R) (k : Z) : option Z :=
  match fuel with
  | O => None
  | S fuel' =>
      if Rlt_dec (f (a - IZR k * TAU)) 0
      then bracketLoop fuel' f a (k + 1)%Z
      else Some k
  end.

(** The initial value of [B]. *)
Definition initialB (fuel : nat) (f : R -> R) (a delta phi v : R)
  : option R :=
  if Rgt_dec (delta ^ 2) (phi ^ 2 + v)
  then Some (ln (delta ^ 2 - phi ^ 2 - v))
  else
    match bracketLoop fuel f a 1 with
    | Some k => Some (a - IZR k * TAU)
    | None => None
    end.

(** [while (Math.abs(B - A) > 0.000001) { ... }], returning the final
    [A]. *)
Fixpoint illinois (fuel : nat) (f : R -> R) (A fA B fB : R) : option R :=
  match fuel with
  | O => None
  | S fuel' =>
      if Rgt_dec (Rabs (B - A)) 0.000001
      then
        let C := A + ((A - B) * fA) / (fB - fA) in
        let fC := f C in
        if Rlt_dec (fC * fB) 0
        then illinois fuel' f B fB C fC
        else illinois fuel' f A (fA / 2) C fC
      else Some A
  end.

(** [calculateNewStats], with [None] while one of its two loops is still
    running.  [Math.log] is embedded as [ln], which is meant for a
    positive argument: for [vol = 0] the source computes
    [Math.log(0) = -Infinity] and returns a volatility of 0, whereas
    [ln 0] is the real number 0, so the embedding follows the source for
    a non-zero volatility only.  The statements below that would not
    hold of the source at [vol = 0] assume [vol p <> 0]. *)
Definition calculateNewStats (fuel : nat)
  (player opponent : GlickoPlayer) (score : Score) : option GlickoPlayer :=
  let p := toGlickoScale player in
  let o := toGlickoScale opponent in
  let g_phi_j := g (phi o) in
  let E_val := E (mu p) (mu o) (phi o) in
  let v := 1 / (g_phi_j ^ 2 * E_val * (1 - E_val)) in
  let delta := v * g_phi_j * (scoreValue score - E_val) in
  let a := ln (sigma p ^ 2) in
  let f := f delta (phi p) v a in
  match initialB fuel f a delta (phi p) v with
  | None => None
  | Some B =>
      match illinois fuel f a (f a) B (f B) with
      | None => None
      | Some A =>
        let newSigma := exp (A / 2) in
        let phiStar := sqrt (phi p ^ 2 + newSigma ^ 2) in
        let newPhi := 1 / sqrt (1 / phiStar ^ 2 + 1 / v) in
        let newMu :=
          mu p + newPhi ^ 2 * g_phi_j * (scoreValue score - E_val) in
        Some (toStandardScale newMu newPhi newSigma)
      end
  end.

(** The locals of [calculateNewStats] that the statements below name. *)
Definition varianceOf (player opponent : GlickoPlayer) : R :=
  let p := toGlickoScale player in
  let o := toGlickoScale opponent in
  let E_val := E (mu p) (mu o) (phi o) in
  1 / (g (phi o) ^ 2 * E_val * (1 - E_val)).

Definition deltaOf (player opponent : GlickoPlayer) (score : Score) : R :=
  let p := toGlickoScale player in
  let o := toGlickoScale opponent in
  let E_val := E (mu p) (mu o) (phi o) in
  varianceOf player opponent * g (phi o) * (scoreValue score - E_val).

Definition fOf (player opponent : GlickoPlayer) (score : Score) : R -> R :=
  f (deltaOf player opponent score) (phi (toGlickoScale player))
    (varianceOf player opponent) (ln (sigma (toGlickoScale player) ^ 2)).

(** Lines 144-153: the new state computed from the final [A]. *)
Definition newStatsOf (player opponent : GlickoPlayer) (score : Score)
  (A : R) : GlickoPlayer :=
  let p := toGlickoScale player in
  let o := toGlickoScale opponent in
  let g_phi_j := g (phi o) in
  let E_val := E (mu p) (mu o) (phi o) in
  let v := 1 / (g_phi_j ^ 2 * E_val * (1 - E_val)) in
  let newSigma := exp (A / 2) in
  let phiStar := sqrt (phi p ^ 2 + newSigma ^ 2) in
  let newPhi := 1 / sqrt (1 / phiStar ^ 2 + 1 / v) in
  let newMu := mu p + newPhi ^ 2 * g_phi_j * (scoreValue score - E_val) in
  toStandardScale newMu newPhi newSigma.

(** The final [A] of the second loop, started as [calculateNewStats]
    starts it. *)
Definition solveOf (fuel : nat)
  (player opponent : GlickoPlayer) (score : Score) (B : R) : option R :=
  let a := ln (sigma (toGlickoScale player) ^ 2) in
  let f := fOf player opponent score in
  illinois fuel f a (f a) B (f B).

Definition initialBOf (fuel : nat)
  (player opponent : GlickoPlayer) (score : Score) : option R :=
  initialB fuel (fOf player opponent score)
    (ln (sigma (toGlickoScale player) ^ 2))
    (deltaOf player opponent score) (phi (toGlickoScale player))
    (varianceOf player opponent).

(** The final [A] of the two loops. *)
Definition finalAOf (fuel : nat)
  (player opponent : GlickoPlayer) (score : Score) : option R :=
  match initialBOf fuel player opponent score with
  | None => None
  | Some B => solveOf fuel player opponent score B
  end.


(** [f] is a line of slope [-4] through [(a, 0)] minus a small term:
    with [c = phi^2 + v] and [D = c - delta^2],
    [f x = 4 * (a - x) - volTerm c D (exp x)]. *)
Definition volTerm (c D u : R) : R := u * (D + u) / (2 * (c + u) ^ 2).

Definition offLine (F : R -> R) (a x : R) : R := 4 * (a - x) - F x.

(** [volTerm c D u1 - volTerm c D q] is [u1 - q] times
    [diffNum c D u1 q / (2 * (c + u1)^2 * (c + q)^2)]; [slopeLo] and
    [slopeHi] bound the slope of [x |-> volTerm c D (exp x)] just below
    [x = ln u1]. *)
Definition diffNum (c D u1 q : R) : R :=
  D * c ^ 2 - D * u1 * q + c ^ 2 * (u1 + q) + 2 * c * u1 * q.

Definition slopeHi (c D u1 : R) : R :=
  u1 * diffNum c D u1 u1 / (2 * (c + u1) ^ 2 * c ^ 2).

Definition slopeLo (c D u1 : R) : R :=
  7999 / 8001 * (u1 * diffNum c D u1 u1) /
  (2 * (c + u1) ^ 2 * (c + u1) ^ 2).

End GlickoMath.

(** ** utils/rankingSystem.ts *)

Module RankingSystem.
Import Types.

Definition toGlickoPlayer (item : RankedItem R) : GlickoMath.GlickoPlayer :=
  {| GlickoMath.rating := rating item;
     GlickoMath.rd := rd item;
     GlickoMath.vol := vol item |}.

(** [result === 0.5 ? 0.5 : result === 1 ? 0 : 1] *)
Definition score2 (result : GlickoMath.Score) : GlickoMath.Score :=
  match result with
  | GlickoMath.Draw => GlickoMath.Draw
  | GlickoMath.Win => GlickoMath.Loss
  | GlickoMath.Loss => GlickoMath.Win
  end.

Definition withStats (item : RankedItem R)
  (newStats : GlickoMath.GlickoPlayer) : RankedItem R :=
  {| id := id item;
     name := name item;
     image := image item;
     rating := GlickoMath.rating newStats;
     rd := GlickoMath.rd newStats;
     vol := GlickoMath.vol newStats;
     matches := matches item + 1 |}.

Definition processMatch (fuel : nat) (item1 item2 : RankedItem R)
  (result : GlickoMath.Score) : option (RankedItem R * RankedItem R) :=
  let player1 := toGlickoPlayer item1 in
  let player2 := toGlickoPlayer item2 in
  match GlickoMath.calculateNewStats fuel player1 player2 result with
  | None => None
  | Some newStats1 =>
      match
        GlickoMath.calculateNewStats fuel player2 player1 (score2 result)
      with
      | None => None
      | Some newStats2 =>
        Some (withStats item1 newStats1, withStats item2 newStats2)
      end
  end.

End RankingSystem.

(** ** Concrete data used by the examples below *)

Module Examples.
Import Types.

Definition itemQ (i : string) (r d : Q) (m : Z) : RankedItem Q :=
  mkRankedItem i i None r d (6 # 100)%Q m.

(** Three items with distinct identifiers; the third is a ratings
    outlier. *)
Definition poolDistinct : list (RankedItem Q) :=
  [ itemQ "a" 1500 350 0; itemQ "b" 1560 200 4; itemQ "c" 2400 90 9 ].

(** Two records that carry the same identifier. *)
Definition poolSameId : list (RankedItem Q) :=
  [ itemQ "x" 1500 350 0; itemQ "x" 1520 300 2 ].

Definition poolSameId3 : list (RankedItem Q) :=
  [ itemQ "x" 1500 350 0; itemQ "x" 1520 300 2; itemQ "x" 1480 120 7 ].

Definition player (r d s : R) : GlickoMath.GlickoPlayer :=
  GlickoMath.mkGlickoPlayer r d s.

(** The state of a new item. *)
Definition fresh : GlickoMath.GlickoPlayer := player 1500 350 0.06.

Definition settled : GlickoMath.GlickoPlayer := player 1500 30 0.06.


Definition itemR (i : string) (p : GlickoMath.GlickoPlayer) (m : Z)
  : RankedItem R :=
  mkRankedItem i i None (GlickoMath.rating p) (GlickoMath.rd p)
    (GlickoMath.vol p) m.

End Examples.

(** ** utils/rankingSystem.ts, the interface with a winner and a loser *)

Module UpdateRatings.
Import Types.


End UpdateRatings.

(** ** App.tsx: the list of items and the pair on display

    The handlers of [App] are modelled by what they do to the state they
    close over: the list [items] and [currentPair].  A handler is a
    function from the state at the time of the call to the values it
    passes to [setItems] and [setCurrentPair]; [None] stands for the
    [TypeError] of [getNextMatchup].  The answer of [confirm], the
    identifier drawn by [uuidv4] and the random numbers are arguments.
    [String.prototype.trim] is a parameter. *)

Module App.
Import Types.

(** The argument of [handleVote]: [0] (left), [1] (right) or
    ["draw"]. *)
Inductive Vote : Type := VoteLeft | VoteRight | VoteDraw.

(** The score [handleVote] passes to [processMatch]. *)
Definition voteScore (result : Vote) : GlickoMath.Score :=
  match result with
  | VoteDraw => GlickoMath.Draw
  | VoteLeft => GlickoMath.Win
  | VoteRight => GlickoMath.Loss
  end.

Section WithNumbers.
Context {num : Type} {N : JsNum num}.

Local Abbreviation Item := (RankedItem num).

(** [currentPair]: [null], or a pair whose second component can be
    [undefined]. *)
Definition PairState : Type := option (Item * option Item).

Definition tryGetNextPair (candidateItems : list Item) (u1 u2 : Q)
  : Matchmaking.Matchup num :=
  if (List.length candidateItems <? 2)%nat then Matchmaking.Null
  else Matchmaking.getNextMatchup candidateItems u1 u2.

(** [Leaderboard]: [[...items].sort((a, b) => b.rating - a.rating)]. *)
Definition compareRating (a b : Item) : num := nsub (rating b) (rating a).

Definition leaderboard (items : list Item) : list Item :=
  JsArray.sort compareRating items.

(** [handleVote]: the list passed to [setItems]. *)
Definition replaceItems (items : list Item) (item1 item2 : Item)
  : list Item :=
  map (fun item =>
         if String.eqb (id item) (id item1) then item1
         else if String.eqb (id item) (id item2) then item2
         else item)
      items.

(** [handleDeleteItem]: the list passed to [setItems]. *)
Definition withoutItem (items : list Item) (deleted : string) : list Item :=
  filter (fun item => negb (String.eqb (id item) deleted)) items.

(** [handleDeleteItem] after the user has confirmed: the new list and
    the new pair. *)
Definition handleDeleteItem (items : list Item) (currentPair : PairState)
  (deleted : string) (u1 u2 : Q) : option (list Item * PairState) :=
  let updatedItems := withoutItem items deleted in
  match currentPair with
  | Some (item1, item2) =>
      if String.eqb (id item1) deleted
      then
        match tryGetNextPair updatedItems u1 u2 with
        | Matchmaking.Null => Some (updatedItems, None)
        | Matchmaking.Pair a b => Some (updatedItems, Some (a, b))
        | Matchmaking.TypeError => None
        end
      else
        match item2 with
        | None => None
        | Some item2' =>
            if String.eqb (id item2') deleted
            then
              match tryGetNextPair updatedItems u1 u2 with
              | Matchmaking.Null => Some (updatedItems, None)
              | Matchmaking.Pair a b => Some (updatedItems, Some (a, b))
              | Matchmaking.TypeError => None
              end
            else Some (updatedItems, currentPair)
        end
  | None =>
      if (2 <=? List.length updatedItems)%nat
      then
        match tryGetNextPair updatedItems u1 u2 with
        | Matchmaking.Null => Some (updatedItems, None)
        | Matchmaking.Pair a b => Some (updatedItems, Some (a, b))
        | Matchmaking.TypeError => None
        end
      else Some (updatedItems, None)
  end.

End WithNumbers.

Section AddAndVote.
Variable trim : string -> string.

(** [handleAddItem]: the new record. *)
Definition newItem (uuid newItemName : string) (newImageName : option string)
  : RankedItem R :=
  {| id := uuid;
     name := trim newItemName;
     image := match newImageName with
              | Some EmptyString => None
              | other => other
              end;
     rating := 1500%R;
     rd := 350%R;
     vol := 0.06%R;
     matches := 0 |}.

(** [handleAddItem]: the new list and the new pair; nothing changes for
    a blank name. *)
Definition handleAddItem (items : list (RankedItem R))
  (currentPair : @PairState R) (uuid newItemName : string)
  (newImageName : option string) (u1 u2 : Q)
  : option (list (RankedItem R) * @PairState R) :=
  if String.eqb (trim newItemName) EmptyString
  then Some (items, currentPair)
  else
    let updatedItems := items ++ [newItem uuid newItemName newImageName] in
    match currentPair with
    | Some _ => Some (updatedItems, currentPair)
    | None =>
        match tryGetNextPair updatedItems u1 u2 with
        | Matchmaking.Null => Some (updatedItems, None)
        | Matchmaking.Pair a b => Some (updatedItems, Some (a, b))
        | Matchmaking.TypeError => None
        end
    end.

End AddAndVote.

(** The callback [handleVote] schedules, on the [items] and the
    [currentPair] it closes over: the new list and the new pair.  The
    outer [None] is a loop of the rating update that is still running,
    the inner one the [TypeError]. *)
Definition voteCallback (fuel : nat) (items : list (RankedItem R))
  (item1 item2 : RankedItem R) (result : Vote) (u1 u2 : Q)
  : option (option (list (RankedItem R) * @PairState R)) :=
  match RankingSystem.processMatch fuel item1 item2 (voteScore result) with
  | None => None
  | Some (new1, new2) =>
      let updatedItems := replaceItems items new1 new2 in
      Some
        match tryGetNextPair updatedItems u1 u2 with
        | Matchmaking.Null => Some (updatedItems, None)
        | Matchmaking.Pair a b => Some (updatedItems, Some (a, b))
        | Matchmaking.TypeError => None
        end
  end.

End App.

(** ** Conditions named in the statements below *)

Module Conditions.
Import GlickoMath.
Local Open Scope R_scope.

(** The result that the ratings predict, or a draw between two ratings
    at most 80 points apart. *)
Definition expectedResult (p o : GlickoPlayer) (s : Score) : Prop :=
  match s with
  | Win => rating o <= rating p
  | Loss => rating p <= rating o
  | Draw => Rabs (rating p - rating o) <= 80
  end.

End Conditions.

(** * Properties *)

(** ** Arrays: sorting and indexing *)

Section SortFacts.
Context {A num : Type} {N : JsNum num}.
Variable compareFn : A -> A -> num.

Lemma insert_Permutation (x : A) (l : list A) :
  Permutation (JsArray.insert compareFn x l) (x :: l).
Proof.
  induction l as [|y l IH]; simpl.
  - apply Permutation_refl.
  - destruct (npos (compareFn x y)).
    + apply Permutation_trans with (y :: x :: l).
      * now apply perm_skip.
      * apply perm_swap.
    + apply Permutation_refl.
Qed.

Lemma sort_Permutation (l : list A) :
  Permutation (JsArray.sort compareFn l) l.
Proof.
  induction l as [|x l IH]; simpl.
  - constructor.
  - eapply Permutation_trans.
    + apply insert_Permutation.
    + now apply perm_skip.
Qed.

Lemma sort_length (l : list A) :
  List.length (JsArray.sort compareFn l) = List.length l.
Proof. apply Permutation_length, sort_Permutation. Qed.

Lemma sort_In (l : list A) (x : A) :
  In x (JsArray.sort compareFn l) <-> In x l.
Proof.
  split; apply Permutation_in.
  - apply sort_Permutation.
  - apply Permutation_sym, sort_Permutation.
Qed.

Local Abbreviation notAfter := (JsArray.notAfter compareFn).

Hypothesis compare_total :
  forall x y, npos (compareFn x y) = true -> notAfter y x.
Hypothesis compare_trans :
  forall x y z, notAfter x y -> notAfter y z -> notAfter x z.

Lemma insert_StronglySorted (x : A) (l : list A) :
  StronglySorted notAfter l ->
  StronglySorted notAfter (JsArray.insert compareFn x l).
Proof.
  induction l as [|y l IH]; intros Hs; simpl.
  - repeat constructor.
  - destruct (npos (compareFn x y)) eqn:Hxy.
    + inversion Hs as [|? ? Hl Hy]; subst.
      constructor.
      * now apply IH.
      * apply Forall_forall. intros z Hz.
        apply (Permutation_in _ (insert_Permutation x l)) in Hz.
        destruct Hz as [<-|Hz].
        -- now apply compare_total.
        -- rewrite Forall_forall in Hy. now apply Hy.
    + constructor; [exact Hs|].
      inversion Hs as [|? ? Hl Hy]; subst.
      constructor; [exact Hxy|].
      rewrite Forall_forall in Hy |- *.
      intros z Hz. apply compare_trans with y; [exact Hxy | now apply Hy].
Qed.

Lemma sort_StronglySorted (l : list A) :
  StronglySorted notAfter (JsArray.sort compareFn l).
Proof.
  induction l as [|x l IH]; simpl.
  - constructor.
  - now apply insert_StronglySorted.
Qed.

End SortFacts.

Section IndexFacts.
Context {A : Type}.

Lemma randomIndex_range (u : Q) (n : nat) :
  (0 <= u)%Q -> (u < 1)%Q -> (0 < n)%nat ->
  (0 <= JsArray.randomIndex u n < Z.of_nat n)%Z.
Proof.
  intros H0 H1 Hn. unfold JsArray.randomIndex.
  assert (Hq : (0 < inject_Z (Z.of_nat n))%Q).
  { change 0%Q with (inject_Z 0). rewrite <- Zlt_Qlt. lia. }
  split.
  - change 0%Z with (Qfloor (inject_Z 0)).
    apply Qfloor_resp_le. change (inject_Z 0) with 0%Q.
    apply Qmult_le_0_compat; [exact H0 | now apply Qlt_le_weak].
  - assert (Hlt : (u * inject_Z (Z.of_nat n) < inject_Z (Z.of_nat n))%Q).
    { rewrite <- (Qmult_1_l (inject_Z (Z.of_nat n))) at 2.
      now apply Qmult_lt_compat_r. }
    pose proof (Qfloor_le (u * inject_Z (Z.of_nat n))) as Hf.
    rewrite Zlt_Qlt. eapply Qle_lt_trans; eassumption.
Qed.

Lemma get_Some (l : list A) (i : Z) :
  (0 <= i < Z.of_nat (List.length l))%Z ->
  exists x, JsArray.get l i = Some x /\ nth_error l (Z.to_nat i) = Some x.
Proof.
  intros Hi. unfold JsArray.get.
  destruct (Z.ltb_spec i 0) as [Hneg|_]; [lia|].
  destruct (nth_error l (Z.to_nat i)) as [x|] eqn:Hnth.
  - now exists x.
  - apply nth_error_None in Hnth. lia.
Qed.

Lemma get_In (l : list A) (i : Z) (x : A) :
  JsArray.get l i = Some x -> In x l.
Proof.
  unfold JsArray.get. destruct (i <? 0)%Z; [discriminate|].
  apply nth_error_In.
Qed.

Lemma get_firstn (l : list A) (i : Z) (x : A) (n : nat) :
  JsArray.get l i = Some x -> (i < Z.of_nat n)%Z -> In x (firstn n l).
Proof.
  unfold JsArray.get. destruct (Z.ltb_spec i 0) as [|Hi]; [discriminate|].
  intros Hnth Hlt.
  apply nth_error_In with (n := Z.to_nat i).
  rewrite nth_error_firstn.
  destruct (Nat.ltb_spec (Z.to_nat i) n); [exact Hnth | lia].
Qed.

Lemma firstn_subset (l : list A) (n : nat) (x : A) :
  In x (firstn n l) -> In x l.
Proof.
  intros Hx. rewrite <- (firstn_skipn n l). apply in_or_app. now left.
Qed.

(** A random index into a non-empty array is a defined element. *)
Lemma get_randomIndex (l : list A) (u : Q) :
  (0 <= u)%Q -> (u < 1)%Q -> l <> [] ->
  exists x, JsArray.get l (JsArray.randomIndex u (List.length l)) = Some x.
Proof.
  intros H0 H1 Hl.
  destruct (get_Some l (JsArray.randomIndex u (List.length l))) as [x [Hx _]].
  - apply randomIndex_range; try assumption.
    destruct l; [congruence | simpl; lia].
  - now exists x.
Qed.

(** Indexing the empty array is [undefined], whatever the draw. *)
Lemma get_nil (i : Z) : JsArray.get (@nil A) i = None.
Proof.
  unfold JsArray.get. destruct (i <? 0)%Z; [reflexivity|].
  now destruct (Z.to_nat i).
Qed.

End IndexFacts.

(** ** The matchmaker *)

Section MatchmakingFacts.
Import Types Matchmaking.
Context {num : Type} {N : JsNum num}.

Local Abbreviation Item := (RankedItem num).

Lemma potentialOpponents_In (items : list Item) (A x : Item) :
  In x (potentialOpponents items A) <-> In x items /\ id x <> id A.
Proof.
  unfold potentialOpponents. rewrite filter_In, negb_true_iff.
  split; intros [Hin Hid]; split; try assumption.
  - intros Heq. apply String.eqb_eq in Heq. congruence.
  - destruct (String.eqb_spec (id x) (id A)); congruence.
Qed.

(** What membership in the candidate list means. *)
Lemma closeOpponents_In (items : list Item) (A b : Item) :
  In b (closeOpponents items A) ->
  In b (potentialOpponents items A) /\
  (isClose A b = true \/
   (filter (isClose A) (potentialOpponents items A) = [] /\
    In b (firstn 3 (JsArray.sort (compareDistance A)
                      (potentialOpponents items A))))).
Proof.
  unfold closeOpponents. cbv zeta.
  destruct (filter (isClose A) (potentialOpponents items A)) as [|c cs] eqn:Hf;
    cbn [List.length Nat.eqb]; intros Hb.
  - split.
    + apply (sort_In (compareDistance A)). eapply firstn_subset; exact Hb.
    + right. now split.
  - rewrite <- Hf in Hb. apply filter_In in Hb. destruct Hb as [Hp Hc].
    split; [exact Hp | now left].
Qed.

Lemma closeOpponents_nil (items : list Item) (A : Item) :
  closeOpponents items A = [] <-> potentialOpponents items A = [].
Proof.
  unfold closeOpponents. cbv zeta.
  destruct (filter (isClose A) (potentialOpponents items A)) as [|c cs] eqn:Hf;
    cbn [List.length Nat.eqb].
  - pose proof (sort_length (compareDistance A) (potentialOpponents items A))
      as Hlen.
    destruct (potentialOpponents items A) as [|p ps] eqn:Hp.
    + simpl. tauto.
    + destruct (JsArray.sort (compareDistance A) (p :: ps)); simpl in *;
        [discriminate | split; discriminate].
  - split; [discriminate|]. intros Hp. rewrite Hp in Hf. discriminate.
Qed.

(** With pairwise distinct identifiers every item has an opponent. *)
Lemma distinct_ids_other (items : list Item) (A : Item) :
  (2 <= List.length items)%nat -> NoDup (map id items) ->
  potentialOpponents items A <> [].
Proof.
  intros Hlen Hnd.
  destruct items as [|x [|y rest]]; simpl in Hlen; try lia.
  assert (Hxy : id x <> id y).
  { inversion Hnd as [|? ? Hnotin _]; subst. intros Heq.
    apply Hnotin. simpl. now left. }
  destruct (String.eqb_spec (id x) (id A)) as [HxA|HxA].
  - assert (Hin : In y (potentialOpponents (x :: y :: rest) A)).
    { apply potentialOpponents_In. split; [simpl; tauto | congruence]. }
    intros Hnil. rewrite Hnil in Hin. exact Hin.
  - assert (Hin : In x (potentialOpponents (x :: y :: rest) A)).
    { apply potentialOpponents_In. split; [simpl; tauto | exact HxA]. }
    intros Hnil. rewrite Hnil in Hin. exact Hin.
Qed.

(** The first draw always selects a defined item, among the first
    [min(3, n)] of the ranking. *)
Lemma candidateA_defined (items : list Item) (u1 : Q) :
  (2 <= List.length items)%nat -> isRandom u1 ->
  exists A,
    JsArray.get (sortedByNeed items)
      (JsArray.randomIndex u1 (Nat.min 3 (List.length (sortedByNeed items))))
    = Some A /\
    In A (firstn (Nat.min 3 (List.length items)) (sortedByNeed items)) /\
    In A items.
Proof.
  intros Hlen [H0 H1].
  pose proof (sort_length compareNeed items) as Hsl.
  fold (sortedByNeed items) in Hsl.
  set (n := Nat.min 3 (List.length (sortedByNeed items))).
  assert (Hr : (0 <= JsArray.randomIndex u1 n < Z.of_nat n)%Z).
  { apply randomIndex_range; try assumption. subst n. lia. }
  destruct (get_Some (sortedByNeed items) (JsArray.randomIndex u1 n))
    as [A [HA _]].
  { subst n. lia. }
  exists A. split; [exact HA|]. split.
  - rewrite <- Hsl. eapply get_firstn; [exact HA | subst n; lia].
  - apply (sort_In compareNeed). eapply get_In. exact HA.
Qed.

Lemma getNextMatchup_unfold (items : list Item) (u1 u2 : Q) (A : Item) :
  (2 <= List.length items)%nat ->
  JsArray.get (sortedByNeed items)
    (JsArray.randomIndex u1 (Nat.min 3 (List.length (sortedByNeed items))))
  = Some A ->
  getNextMatchup items u1 u2 =
  Pair A (JsArray.get (closeOpponents items A)
            (JsArray.randomIndex u2 (List.length (closeOpponents items A)))).
Proof.
  intros Hlen HA. unfold getNextMatchup.
  destruct (Nat.ltb_spec (List.length items) 2) as [|_]; [lia|].
  cbv zeta. now rewrite HA.
Qed.

(** C4. [getNextMatchup] returns [null] exactly for a pool of fewer than
    two items, and for a pool of at least two items with pairwise
    distinct identifiers it returns a pair of two defined items whose
    identifiers differ, whatever the two random draws are. *)
Theorem getNextMatchup_null_or_distinct_pair
  (items : list Item) (u1 u2 : Q) :
  (getNextMatchup items u1 u2 = Null <-> (List.length items < 2)%nat) /\
  ((2 <= List.length items)%nat -> NoDup (map id items) ->
   isRandom u1 -> isRandom u2 ->
   exists A B,
     getNextMatchup items u1 u2 = Pair A (Some B) /\ id A <> id B).
Proof.
  split.
  - unfold getNextMatchup.
    destruct (Nat.ltb_spec (List.length items) 2) as [Hlt|Hge].
    + tauto.
    + cbv zeta. split; [|lia].
      destruct (JsArray.get _ _); discriminate.
  - intros Hlen Hnd Hu1 Hu2.
    destruct (candidateA_defined items u1 Hlen Hu1) as [A [HA [_ HAin]]].
    destruct Hu2 as [H0 H1].
    destruct (get_randomIndex (closeOpponents items A) u2 H0 H1) as [B HB].
    { rewrite closeOpponents_nil. now apply distinct_ids_other. }
    exists A, B. split.
    + rewrite (getNextMatchup_unfold items u1 u2 A Hlen HA). now rewrite HB.
    + apply get_In, closeOpponents_In in HB. destruct HB as [HB _].
      apply potentialOpponents_In in HB. destruct HB as [_ HB]. congruence.
Qed.

(** C10 (as amended). For a pool of at least two items with pairwise
    distinct identifiers, the candidate list built for the selected
    competitor A is not empty, so the second random index is in range
    and competitor B is a defined item. *)
Theorem closeOpponents_nonempty_distinct_ids
  (items : list Item) (u1 u2 : Q) :
  (2 <= List.length items)%nat -> NoDup (map id items) ->
  isRandom u1 -> isRandom u2 ->
  exists A B,
    JsArray.get (sortedByNeed items)
      (JsArray.randomIndex u1 (Nat.min 3 (List.length (sortedByNeed items))))
    = Some A /\
    closeOpponents items A <> [] /\
    JsArray.get (closeOpponents items A)
      (JsArray.randomIndex u2 (List.length (closeOpponents items A)))
    = Some B /\
    getNextMatchup items u1 u2 = Pair A (Some B).
Proof.
  intros Hlen Hnd Hu1 [H0 H1].
  destruct (candidateA_defined items u1 Hlen Hu1) as [A [HA _]].
  assert (Hne : closeOpponents items A <> []).
  { rewrite closeOpponents_nil. now apply distinct_ids_other. }
  destruct (get_randomIndex (closeOpponents items A) u2 H0 H1 Hne) as [B HB].
  exists A, B. repeat split; try assumption.
  rewrite (getNextMatchup_unfold items u1 u2 A Hlen HA). now rewrite HB.
Qed.

End MatchmakingFacts.

Lemma StronglySorted_weaken {A : Type} (R1 R2 : A -> A -> Prop) (l : list A) :
  (forall a b, R1 a b -> R2 a b) ->
  StronglySorted R1 l -> StronglySorted R2 l.
Proof.
  intros Himp Hs. induction Hs as [|a l Hs IH Hall]; constructor.
  - exact IH.
  - eapply Forall_impl; [|exact Hall]. intros b. apply Himp.
Qed.

Section RankingFacts.
Import Types Matchmaking.
Context {num : Type} {N : JsNum num} {L : JsNumLaws num}.

Local Abbreviation Item := (RankedItem num).

(** The comparator of the first sort decides the ranking by need. *)
Lemma compareNeed_rankedBefore (a b : Item) :
  JsArray.notAfter compareNeed a b <-> rankedBefore a b.
Proof.
  unfold JsArray.notAfter, compareNeed, rankedBefore.
  destruct (Z.eqb_spec (matches a) (matches b)) as [Heq|Hne].
  - split; [intros H; right; now split | intros [Hlt|[_ H]]; [lia | exact H]].
  - rewrite npos_ofZ. rewrite Z.ltb_ge. split.
    + intros H. left. lia.
    + intros [Hlt|[Heq _]]; [lia | contradiction].
Qed.

Lemma compareNeed_total (x y : Item) :
  npos (compareNeed x y) = true -> JsArray.notAfter compareNeed y x.
Proof.
  unfold JsArray.notAfter, compareNeed.
  rewrite (Z.eqb_sym (matches y) (matches x)).
  destruct (Z.eqb_spec (matches x) (matches y)) as [Heq|Hne].
  - apply npos_asym.
  - rewrite !npos_ofZ, Z.ltb_lt, Z.ltb_ge. lia.
Qed.

Lemma compareNeed_trans (x y z : Item) :
  JsArray.notAfter compareNeed x y -> JsArray.notAfter compareNeed y z ->
  JsArray.notAfter compareNeed x z.
Proof.
  rewrite !compareNeed_rankedBefore. unfold rankedBefore.
  intros [Hxy|[Hxy Hr1]] [Hyz|[Hyz Hr2]]; try (left; lia).
  right. split; [lia|]. now apply npos_trans with (rd y).
Qed.

Lemma compareDistance_total (A x y : Item) :
  npos (compareDistance A x y) = true ->
  JsArray.notAfter (compareDistance A) y x.
Proof. apply npos_asym. Qed.

Lemma compareDistance_trans (A x y z : Item) :
  JsArray.notAfter (compareDistance A) x y ->
  JsArray.notAfter (compareDistance A) y z ->
  JsArray.notAfter (compareDistance A) x z.
Proof. apply npos_trans. Qed.

(** C7 (as amended). For a pool of at least two items with pairwise
    distinct identifiers and any two random draws, the call returns a
    pair (A, B) of items of the pool such that: A is among the first
    [min(3, n)] items of the pool ranked by ascending [matches], ties
    broken by descending [rd]; B has another identifier than A; and
    either B's rating is within 100 of A's, or no item other than A is
    that close and B is among the first three of the other items ordered
    by their absolute rating difference to A. *)
Theorem getNextMatchup_structure (items : list Item) (u1 u2 : Q) :
  (2 <= List.length items)%nat -> NoDup (map id items) ->
  isRandom u1 -> isRandom u2 ->
  exists A B,
    getNextMatchup items u1 u2 = Pair A (Some B) /\
    Permutation (sortedByNeed items) items /\
    StronglySorted rankedBefore (sortedByNeed items) /\
    In A (firstn (Nat.min 3 (List.length items)) (sortedByNeed items)) /\
    In B items /\ id B <> id A /\
    (isClose A B = true \/
     ((forall x, In x items -> id x <> id A -> isClose A x = false) /\
      Permutation (JsArray.sort (compareDistance A)
                     (potentialOpponents items A))
        (potentialOpponents items A) /\
      StronglySorted (JsArray.notAfter (compareDistance A))
        (JsArray.sort (compareDistance A) (potentialOpponents items A)) /\
      In B (firstn 3 (JsArray.sort (compareDistance A)
                        (potentialOpponents items A))))).
Proof.
  intros Hlen Hnd Hu1 [H0 H1].
  destruct (candidateA_defined items u1 Hlen Hu1) as [A [HA [HAtop _]]].
  assert (Hne : closeOpponents items A <> []).
  { rewrite closeOpponents_nil. now apply distinct_ids_other. }
  destruct (get_randomIndex (closeOpponents items A) u2 H0 H1 Hne) as [B HB].
  exists A, B.
  split.
  { rewrite (getNextMatchup_unfold items u1 u2 A Hlen HA). now rewrite HB. }
  split; [apply sort_Permutation|].
  split.
  { eapply StronglySorted_weaken.
    - intros a b. apply compareNeed_rankedBefore.
    - apply sort_StronglySorted.
      + apply compareNeed_total.
      + apply compareNeed_trans. }
  split; [exact HAtop|].
  apply get_In, closeOpponents_In in HB. destruct HB as [HBp HBc].
  apply potentialOpponents_In in HBp. destruct HBp as [HBin HBid].
  split; [exact HBin|]. split; [exact HBid|].
  destruct HBc as [Hclose|[Hnil HBtop]]; [now left|right].
  split.
  { intros x Hx Hid.
    destruct (isClose A x) eqn:Hc; [|reflexivity].
    assert (Hin : In x (filter (isClose A) (potentialOpponents items A))).
    { apply filter_In. split; [|exact Hc].
      apply potentialOpponents_In. now split. }
    rewrite Hnil in Hin. destruct Hin. }
  split; [apply sort_Permutation|].
  split; [|exact HBtop].
  apply sort_StronglySorted.
  - apply compareDistance_total.
  - apply compareDistance_trans.
Qed.

End RankingFacts.

(** The rationals and the reals are numbers in the sense of
    [JsNumLaws]. *)
Lemma QNum_laws : @JsNumLaws Q QNum.
Proof.
  assert (P : forall x : Q, npos x = true <-> (0 < x)%Q).
  { intros x. simpl. rewrite negb_true_iff.
    destruct (Qle_bool x 0) eqn:Hx.
    - apply Qle_bool_iff in Hx. split; [discriminate|]. intros H. Lqa.lra.
    - split; [intros _|reflexivity].
      destruct (Qlt_le_dec 0 x) as [H|H]; [exact H|].
      apply Qle_bool_iff in H. congruence. }
  assert (F : forall x : Q, npos x = false <-> (x <= 0)%Q).
  { intros x. destruct (npos x) eqn:Hx.
    - apply P in Hx. split; [discriminate|]. intros H. Lqa.lra.
    - split; [intros _|reflexivity].
      destruct (Qlt_le_dec 0 x) as [H|H]; [|exact H].
      apply P in H. congruence. }
  constructor.
  - intros x y H. apply P in H. apply F. simpl in *. Lqa.lra.
  - intros x y z H1 H2. apply F in H1, H2. apply F. simpl in *. Lqa.lra.
  - intros z. destruct (Z.ltb_spec 0 z) as [H|H].
    + apply P. simpl. change 0%Q with (inject_Z 0). now rewrite <- Zlt_Qlt.
    + apply F. simpl. change 0%Q with (inject_Z 0). now rewrite <- Zle_Qle.
Qed.

Lemma RNum_laws : @JsNumLaws R RNum.
Proof.
  constructor; simpl.
  - intros x y. destruct (Rlt_dec 0 (x - y)), (Rlt_dec 0 (y - x));
      intros; try reflexivity; try discriminate; lra.
  - intros x y z.
    destruct (Rlt_dec 0 (x - y)), (Rlt_dec 0 (y - z)), (Rlt_dec 0 (x - z));
      intros; try reflexivity; try discriminate; lra.
  - intros z. destruct (Rlt_dec 0 (IZR z)) as [H|H];
      destruct (Z.ltb_spec 0 z) as [Hz|Hz]; try reflexivity.
    + apply lt_IZR in H. lia.
    + exfalso. apply H. now apply IZR_lt.
Qed.

(** ** The matchmaker on concrete pools *)

Section MatchmakingExamples.
Import Types Matchmaking Examples.

Lemma poolDistinct_NoDup : NoDup (map id poolDistinct).
Proof.
  repeat constructor; simpl; intuition discriminate.
Defined.

Lemma half_isRandom : isRandom (1 # 2).
Proof. split; [discriminate | reflexivity]. Defined.

Lemma third_isRandom : isRandom (1 # 3).
Proof. split; [discriminate | reflexivity]. Defined.

Lemma zero_isRandom : isRandom 0.
Proof. split; [discriminate | reflexivity]. Defined.

Lemma getNextMatchup_null_or_distinct_pair_witness :
  exists A B,
    getNextMatchup poolDistinct (1 # 2) (1 # 3) = Pair A (Some B) /\
    id A <> id B.
Proof.
  apply (proj2 (getNextMatchup_null_or_distinct_pair
                  poolDistinct (1 # 2) (1 # 3))).
  - simpl. lia.
  - exact poolDistinct_NoDup.
  - exact half_isRandom.
  - exact third_isRandom.
Defined.

Lemma closeOpponents_nonempty_distinct_ids_witness :
  exists A B,
    JsArray.get (sortedByNeed poolDistinct)
      (JsArray.randomIndex 0
         (Nat.min 3 (List.length (sortedByNeed poolDistinct))))
    = Some A /\
    closeOpponents poolDistinct A <> [] /\
    JsArray.get (closeOpponents poolDistinct A)
      (JsArray.randomIndex (1 # 2)
         (List.length (closeOpponents poolDistinct A)))
    = Some B /\
    getNextMatchup poolDistinct 0 (1 # 2) = Pair A (Some B).
Proof.
  apply (closeOpponents_nonempty_distinct_ids poolDistinct 0 (1 # 2)).
  - simpl. lia.
  - exact poolDistinct_NoDup.
  - exact zero_isRandom.
  - exact half_isRandom.
Defined.

(** C10 fails on a pool whose two records carry the same identifier:
    the candidate list is empty and competitor B is [undefined]. *)
Lemma closeOpponents_empty_same_id :
  (2 <= List.length poolSameId)%nat /\
  isRandom 0 /\ isRandom (1 # 2) /\
  closeOpponents poolSameId (itemQ "x" 1500 350 0) = [] /\
  getNextMatchup poolSameId 0 (1 # 2) = Pair (itemQ "x" 1500 350 0) None.
Proof.
  split; [simpl; lia|].
  split; [exact zero_isRandom|].
  split; [exact half_isRandom|].
  split; reflexivity.
Qed.

Lemma getNextMatchup_structure_witness :
  exists A B,
    getNextMatchup poolDistinct (2 # 3) (1 # 2) = Pair A (Some B) /\
    Permutation (sortedByNeed poolDistinct) poolDistinct /\
    StronglySorted rankedBefore (sortedByNeed poolDistinct) /\
    In A (firstn (Nat.min 3 (List.length poolDistinct))
            (sortedByNeed poolDistinct)) /\
    In B poolDistinct /\ id B <> id A /\
    (isClose A B = true \/
     ((forall x, In x poolDistinct -> id x <> id A -> isClose A x = false) /\
      Permutation (JsArray.sort (compareDistance A)
                     (potentialOpponents poolDistinct A))
        (potentialOpponents poolDistinct A) /\
      StronglySorted (JsArray.notAfter (compareDistance A))
        (JsArray.sort (compareDistance A)
           (potentialOpponents poolDistinct A)) /\
      In B (firstn 3 (JsArray.sort (compareDistance A)
                        (potentialOpponents poolDistinct A))))).
Proof.
  apply (@getNextMatchup_structure Q QNum QNum_laws poolDistinct
           (2 # 3) (1 # 2)).
  - simpl. lia.
  - exact poolDistinct_NoDup.
  - split; [discriminate | reflexivity].
  - exact half_isRandom.
Defined.

(** C7 fails on a pool whose records all carry the same identifier:
    the second component of the pair is [undefined]. *)
Lemma getNextMatchup_same_id_undefined :
  (2 <= List.length poolSameId3)%nat /\
  isRandom (1 # 2) /\
  getNextMatchup poolSameId3 (1 # 2) (1 # 2)
  = Pair (itemQ "x" 1520 300 2) None.
Proof.
  split; [simpl; lia|].
  split; [exact half_isRandom|].
  reflexivity.
Qed.

(** On the pool with the outlier, the outlier is paired through the
    fallback, and a regular item through the closeness filter. *)
Example getNextMatchup_outlier :
  getNextMatchup poolDistinct (2 # 3) (1 # 2)
  = Pair (itemQ "c" 2400 90 9) (Some (itemQ "a" 1500 350 0)).
Proof. reflexivity. Qed.

Example getNextMatchup_close :
  getNextMatchup poolDistinct 0 (1 # 2)
  = Pair (itemQ "a" 1500 350 0) (Some (itemQ "b" 1560 200 4)).
Proof. reflexivity. Qed.

Example getNextMatchup_singleton :
  getNextMatchup [itemQ "a" 1500 350 0] 0 0 = Null.
Proof. reflexivity. Qed.

End MatchmakingExamples.

(** ** The rating engine: the quantities of one update *)

Section EngineBasics.
Import GlickoMath.
Local Open Scope R_scope.

Lemma GLICKO_SCALE_pos : 0 < GLICKO_SCALE.
Proof. unfold GLICKO_SCALE. lra. Qed.

Lemma g_bounds (x : R) : 0 < g x <= 1.
Proof.
  unfold g.
  assert (Hpi : 0 < PI ^ 2) by (pose proof PI_RGT_0; nra).
  assert (Hq : 0 <= 3 * x ^ 2 / PI ^ 2).
  { apply Rmult_le_pos; [nra | left; now apply Rinv_0_lt_compat]. }
  assert (Hs : 1 <= sqrt (1 + 3 * x ^ 2 / PI ^ 2)).
  { rewrite <- sqrt_1 at 1. apply sqrt_le_1; lra. }
  split.
  - apply Rdiv_lt_0_compat; lra.
  - apply Rmult_le_reg_r with (sqrt (1 + 3 * x ^ 2 / PI ^ 2)); [lra|].
    unfold Rdiv. rewrite Rmult_assoc, Rinv_l; lra.
Qed.

Lemma g_sqr (x : R) : g x = g (Rabs x).
Proof. unfold g. now rewrite pow2_abs. Qed.

Lemma E_bounds (m mj pj : R) : 0 < E m mj pj < 1.
Proof.
  unfold E. pose proof (exp_pos (- g pj * (m - mj))) as He.
  split.
  - apply Rdiv_lt_0_compat; lra.
  - apply Rmult_lt_reg_r with (1 + exp (- g pj * (m - mj))); [lra|].
    unfold Rdiv. rewrite Rmult_assoc, Rinv_l; lra.
Qed.

Lemma E_equal_mu (m pj : R) : E m m pj = 1 / 2.
Proof.
  unfold E. replace (- g pj * (m - m)) with 0 by ring.
  rewrite exp_0. lra.
Qed.

Lemma inverse_weight_ge_4 (G Ev : R) :
  0 < G <= 1 -> 0 < Ev < 1 -> 4 <= 1 / (G ^ 2 * Ev * (1 - Ev)).
Proof.
  intros HG HE.
  assert (H1 : 0 < Ev * (1 - Ev)) by (apply Rmult_lt_0_compat; lra).
  assert (H2 : Ev * (1 - Ev) <= 1 / 4).
  { pose proof (pow2_ge_0 (Ev - 1 / 2)). lra. }
  assert (H3 : 0 < G ^ 2) by nra.
  assert (H4 : G ^ 2 <= 1) by nra.
  assert (Hd : 0 < G ^ 2 * Ev * (1 - Ev)).
  { rewrite Rmult_assoc. now apply Rmult_lt_0_compat. }
  assert (Hq : G ^ 2 * Ev * (1 - Ev) <= 1 / 4).
  { rewrite Rmult_assoc. nra. }
  remember (G ^ 2 * Ev * (1 - Ev)) as d eqn:Ed. clear Ed.
  apply Rmult_le_reg_r with d; [exact Hd|].
  replace (1 / d * d) with 1 by (field; lra). lra.
Qed.

(** The estimated variance is at least 4. *)
Lemma varianceOf_ge_4 (player opponent : GlickoPlayer) :
  4 <= varianceOf player opponent.
Proof.
  unfold varianceOf. cbv zeta.
  apply inverse_weight_ge_4; [apply g_bounds | apply E_bounds].
Qed.

Lemma varianceOf_equal_rating (player opponent : GlickoPlayer) :
  rating player = rating opponent ->
  varianceOf player opponent
  = 4 / g (phi (toGlickoScale opponent)) ^ 2.
Proof.
  intros Heq. unfold varianceOf. cbv zeta.
  replace (mu (toGlickoScale player)) with (mu (toGlickoScale opponent))
    by (unfold toGlickoScale; simpl; now rewrite Heq).
  rewrite E_equal_mu.
  pose proof (g_bounds (phi (toGlickoScale opponent))) as HG.
  field. lra.
Qed.

(** [calculateNewStats] is its two loops followed by the closing
    assignments. *)
Lemma calculateNewStats_eq (fuel : nat)
  (player opponent : GlickoPlayer) (score : Score) :
  calculateNewStats fuel player opponent score =
  match initialBOf fuel player opponent score with
  | None => None
  | Some B =>
      match solveOf fuel player opponent score B with
      | None => None
      | Some A => Some (newStatsOf player opponent score A)
      end
  end.
Proof. reflexivity. Qed.

Lemma calculateNewStats_Some (fuel : nat)
  (player opponent r : GlickoPlayer) (score : Score) :
  calculateNewStats fuel player opponent score = Some r ->
  exists B A,
    initialBOf fuel player opponent score = Some B /\
    solveOf fuel player opponent score B = Some A /\
    r = newStatsOf player opponent score A.
Proof.
  rewrite calculateNewStats_eq.
  destruct (initialBOf fuel player opponent score) as [B|]; [|discriminate].
  destruct (solveOf fuel player opponent score B) as [A|] eqn:HA;
    [|discriminate].
  intros [= <-]. exists B, A. auto.
Qed.

End EngineBasics.

(** ** The second loop of the volatility solver *)

Section IllinoisSteps.
Import GlickoMath.
Local Open Scope R_scope.
Variable F : R -> R.

Lemma illinois_exit (n : nat) (A fA B fB : R) :
  Rabs (B - A) <= 0.000001 ->
  illinois (S n) F A fA B fB = Some A.
Proof.
  intros H. simpl. destruct (Rgt_dec (Rabs (B - A)) 0.000001); [lra|reflexivity].
Qed.

Lemma illinois_flip (n : nat) (A fA B fB C : R) :
  Rabs (B - A) > 0.000001 ->
  C = A + ((A - B) * fA) / (fB - fA) ->
  F C * fB < 0 ->
  illinois (S n) F A fA B fB = illinois n F B fB C (F C).
Proof.
  intros H -> Hs. simpl.
  destruct (Rgt_dec (Rabs (B - A)) 0.000001); [|lra].
  destruct (Rlt_dec _ 0); [reflexivity|lra].
Qed.

Lemma illinois_half (n : nat) (A fA B fB C : R) :
  Rabs (B - A) > 0.000001 ->
  C = A + ((A - B) * fA) / (fB - fA) ->
  0 <= F C * fB ->
  illinois (S n) F A fA B fB = illinois n F A (fA / 2) C (F C).
Proof.
  intros H -> Hs. simpl.
  destruct (Rgt_dec (Rabs (B - A)) 0.000001); [|lra].
  destruct (Rlt_dec _ 0); [lra|reflexivity].
Qed.
End IllinoisSteps.

(** The second loop on a function that is close to the line of slope
    [-4] through [(a, 0)]: the first secant point overshoots the root, the
    halved value at [a] makes the second one fall short of it, and the
    bracket that is left is below the tolerance. *)
Section NearLine.
Import GlickoMath.
Local Open Scope R_scope.
Variables (F : R -> R) (a mlo mhi : R).
Local Abbreviation T := (offLine F a).

Hypothesis T0_pos : 0 < T a.
Hypothesis T0_small : T a <= 1.
Hypothesis Th_le : T (a - 1 / 2) <= T a.
Hypothesis mlo_pos : 0 < mlo.
Hypothesis slope : forall d, 0 <= d <= T a / 4 ->
  mlo * d <= T a - T (a - d) <= mhi * d.
Hypothesis gap : 2 * (T a - T (a - 1 / 2)) + mhi < 2 * mlo.
Hypothesis fine : mhi * T a <= 8 / 1000000.

Lemma near_line_terminates :
  exists A, illinois 3 F a (F a) (a - 1 / 2) (F (a - 1 / 2)) = Some A /\
            a - T a / 4 <= A <= a.
Proof.
  set (T0 := T a) in *. set (Dh := T0 - T (a - 1 / 2)) in *.
  assert (HFa : F a = - T0) by (unfold T0, offLine; lra).
  assert (HFb : F (a - 1 / 2) = 2 + Dh - T0) by (unfold Dh, T0, offLine; lra).
  assert (HDh : 0 <= Dh) by (unfold Dh; lra).
  (* first secant point *)
  set (y := T0 / (2 * (2 + Dh))).
  assert (Hy : y * (2 * (2 + Dh)) = T0) by (unfold y; field; lra).
  assert (Hy0 : 0 < y) by (unfold y; apply Rdiv_lt_0_compat; lra).
  assert (Hy4 : y <= T0 / 4) by nra.
  destruct (slope y (conj (Rlt_le _ _ Hy0) Hy4)) as [Hlo Hhi].
  assert (Hmm : mlo <= mhi) by nra.
  set (fC := F (a - y)).
  assert (HfC : fC = (T0 - T (a - y)) - 2 * y * Dh).
  { assert (E1 : T (a - y) = 4 * (a - (a - y)) - F (a - y)) by reflexivity.
    unfold fC. nra. }
  assert (HfC0 : 0 < fC) by nra.
  assert (HfC1 : fC <= mhi * y) by nra.
  assert (HC1 : a - y = a + ((a - (a - 1 / 2)) * F a) / (F (a - 1 / 2) - F a)).
  { rewrite HFa, HFb. unfold y. field. lra. }
  rewrite (illinois_half F 2 a (F a) (a - 1 / 2) (F (a - 1 / 2)) (a - y)).
  2:{ replace (a - 1 / 2 - a) with (- (1 / 2)) by ring.
      rewrite Rabs_Ropp, Rabs_pos_eq; lra. }
  2: exact HC1.
  2:{ fold fC. rewrite HFb. apply Rmult_le_pos; lra. }
  fold fC.
  destruct (Rle_lt_dec (Rabs (a - y - a)) 0.000001) as [Hex|Hgo].
  { rewrite illinois_exit by exact Hex. exists a. split; [reflexivity|lra]. }
  (* second secant point *)
  set (y2 := y * (T0 / 2) / (fC + T0 / 2)).
  assert (Hy2 : y2 * (fC + T0 / 2) = y * (T0 / 2)) by (unfold y2; field; lra).
  assert (Hy20 : 0 < y2).
  { unfold y2. apply Rdiv_lt_0_compat; [|lra]. apply Rmult_lt_0_compat; lra. }
  assert (Hy2y : y2 < y) by nra.
  destruct (slope y2) as [Hlo2 Hhi2]; [lra|].
  set (fC2 := F (a - y2)).
  assert (HfC2 : fC2 = 4 * y2 - T0 + (T0 - T (a - y2))).
  { assert (E2 : T (a - y2) = 4 * (a - (a - y2)) - F (a - y2)) by reflexivity.
    unfold fC2. lra. }
  assert (HfC2neg : fC2 < 0).
  { assert (y2 * (4 + mhi) < T0); [|lra].
    assert (y * (4 + mhi) < 2 * fC + T0) by nra.
    nra. }
  assert (HC2 : a - y2 = a + ((a - (a - y)) * (F a / 2)) / (fC - F a / 2)).
  { rewrite HFa. unfold y2. field. lra. }
  rewrite (illinois_flip F 1 a (F a / 2) (a - y) fC (a - y2)).
  2: lra.
  2: exact HC2.
  2:{ fold fC2. nra. }
  fold fC2.
  rewrite illinois_exit.
  { exists (a - y). split; [reflexivity|lra]. }
  replace (a - y2 - (a - y)) with (y - y2) by ring.
  rewrite Rabs_pos_eq by lra.
  assert (Hd : (y - y2) * (fC + T0 / 2) = y * fC) by nra.
  assert (Hd2 : (y - y2) * T0 <= 2 * y * fC) by nra.
  assert (Hd3 : 2 * y * fC <= 2 * mhi * y * y) by nra.
  assert (Hd4 : 2 * mhi * y * y <= mhi * T0 * T0 / 8).
  { assert (0 < mhi) by lra. assert (y * y <= T0 / 4 * (T0 / 4)) by nra. nra. }
  assert (Hd5 : (y - y2) * T0 <= (8 / 1000000) / 8 * T0) by nra.
  nra.
Qed.
End NearLine.

(** ** The small term of [f] *)

Local Open Scope R_scope.

Lemma Rdiv_le_mono (x x' y y' : R) :
  0 <= x <= x' -> 0 < y' <= y -> x / y <= x' / y'.
Proof.
  intros [Hx Hxx] [Hy Hyy].
  apply Rle_trans with (x' / y).
  - apply Rmult_le_compat_r; [|exact Hxx].
    left. apply Rinv_0_lt_compat. lra.
  - apply Rmult_le_compat_l; [lra|].
    apply Rinv_le_contravar; assumption.
Qed.

Section VolTerm.
Import GlickoMath.
Local Open Scope R_scope.
Variables c D u1 : R.
Hypothesis c_pos : 0 < c.
Hypothesis D_range : 0 <= D <= c.
Hypothesis u1_pos : 0 < u1.
Hypothesis u1_small : 1000 * u1 <= c.

Local Abbreviation N := (diffNum c D u1).
Local Abbreviation N1 := (diffNum c D u1 u1).
Local Abbreviation mhi := (slopeHi c D u1).
Local Abbreviation mlo := (slopeLo c D u1).

Lemma volTerm_diff (q : R) :
  0 < q ->
  volTerm c D u1 - volTerm c D q
  = (u1 - q) * N q / (2 * (c + u1) ^ 2 * (c + q) ^ 2).
Proof. intros Hq. unfold volTerm, diffNum. field. split; lra. Qed.

Lemma N_bounds (q : R) : 0 < q <= u1 -> 0 < N q <= N1.
Proof.
  intros [Hq Hqu]. unfold diffNum.
  assert (K1 : 0 < c ^ 2 + 2 * c * u1 - D * u1) by nra.
  assert (K0 : 0 <= D * c ^ 2) by (apply Rmult_le_pos; nra).
  split; nra.
Qed.

Lemma N_lower (q d : R) :
  0 <= d <= 1 -> u1 * (1 - d) <= q -> (1 - d) * N1 <= N q.
Proof.
  intros Hd Hq. unfold diffNum.
  assert (K1 : 0 < c ^ 2 + 2 * c * u1 - D * u1) by nra.
  assert (K0 : 0 <= D * c ^ 2) by (apply Rmult_le_pos; nra).
  assert (K2 : 0 <= c ^ 2 * u1) by (apply Rmult_le_pos; nra).
  assert (H1 : (q - u1 * (1 - d)) * (c ^ 2 + 2 * c * u1 - D * u1) >= 0) by nra.
  nra.
Qed.

Lemma N1_pos : 0 < N1.
Proof. apply (N_bounds u1). lra. Qed.

Lemma volTerm_pos : 0 < volTerm c D u1.
Proof.
  unfold volTerm. apply Rdiv_lt_0_compat; [|nra].
  apply Rmult_lt_0_compat; lra.
Qed.

Lemma volTerm_small : volTerm c D u1 <= 1 / 2000.
Proof.
  unfold volTerm.
  apply Rle_trans with (u1 * (c + u1) / (2 * (c + u1) ^ 2)).
  - apply Rdiv_le_mono; split; try nra.
  - replace (u1 * (c + u1) / (2 * (c + u1) ^ 2)) with (u1 / (2 * (c + u1)))
      by (field; lra).
    apply Rmult_le_reg_r with (2 * (c + u1)); [lra|].
    replace (u1 / (2 * (c + u1)) * (2 * (c + u1))) with u1 by (field; lra).
    lra.
Qed.

Lemma mhi_pos : 0 < mhi.
Proof.
  unfold slopeHi. pose proof N1_pos.
  apply Rdiv_lt_0_compat; [now apply Rmult_lt_0_compat|].
  apply Rmult_lt_0_compat; nra.
Qed.

Lemma mlo_pos : 0 < mlo.
Proof.
  unfold slopeLo. pose proof N1_pos.
  apply Rdiv_lt_0_compat.
  - apply Rmult_lt_0_compat; [lra|]. now apply Rmult_lt_0_compat.
  - apply Rmult_lt_0_compat; nra.
Qed.

Lemma mhi_small : mhi <= 1 / 1000.
Proof.
  unfold slopeHi. pose proof N1_pos as HN.
  assert (HN2 : N1 <= 2 * c * (c + u1) ^ 2).
  { unfold diffNum.
    assert (D * c ^ 2 <= c * c ^ 2) by (apply Rmult_le_compat_r; nra).
    assert (0 <= D * u1 * u1) by (repeat apply Rmult_le_pos; lra).
    nra. }
  apply Rle_trans with (u1 * (2 * c * (c + u1) ^ 2) / (2 * (c + u1) ^ 2 * c ^ 2)).
  - apply Rdiv_le_mono.
    + split; [apply Rmult_le_pos; lra|]. apply Rmult_le_compat_l; lra.
    + split; [apply Rmult_lt_0_compat; nra | lra].
  - replace (u1 * (2 * c * (c + u1) ^ 2) / (2 * (c + u1) ^ 2 * c ^ 2))
      with (u1 / c) by (field; split; lra).
    apply Rmult_le_reg_r with c; [lra|].
    replace (u1 / c * c) with u1 by (field; lra). lra.
Qed.

Lemma mlo_mhi : 15 / 16 * mhi < mlo.
Proof.
  pose proof N1_pos as HN.
  assert (HX : 0 < u1 * N1) by now apply Rmult_lt_0_compat.
  assert (Hs : 0 < (c + u1) ^ 2) by nra.
  assert (Hc2 : 0 < c ^ 2) by nra.
  assert (Hk : 15 * 8001 * (c + u1) ^ 2 < 16 * 7999 * c ^ 2) by nra.
  unfold slopeHi, slopeLo.
  apply Rmult_lt_reg_r with (2 * (c + u1) ^ 2 * c ^ 2 * (c + u1) ^ 2 * (16 * 8001)).
  { repeat apply Rmult_lt_0_compat; lra. }
  replace (15 / 16 * (u1 * N1 / (2 * (c + u1) ^ 2 * c ^ 2)) *
           (2 * (c + u1) ^ 2 * c ^ 2 * (c + u1) ^ 2 * (16 * 8001)))
    with (u1 * N1 * (15 * 8001 * (c + u1) ^ 2)) by (field; split; lra).
  replace (7999 / 8001 * (u1 * N1) / (2 * (c + u1) ^ 2 * (c + u1) ^ 2) *
           (2 * (c + u1) ^ 2 * c ^ 2 * (c + u1) ^ 2 * (16 * 8001)))
    with (u1 * N1 * (16 * 7999 * c ^ 2)) by (field; lra).
  apply Rmult_lt_compat_l; assumption.
Qed.

(** the slope of the term between [u1 * e] and [u1], for [e = exp (- d)] *)
Lemma volTerm_slope (d e : R) :
  0 <= d <= 1 / 8000 -> 0 < e -> 1 - d <= e -> e * (1 + d) <= 1 ->
  mlo * d <= volTerm c D u1 - volTerm c D (u1 * e) <= mhi * d.
Proof.
  intros Hd He Hlo Hhi.
  assert (Hq : 0 < u1 * e) by now apply Rmult_lt_0_compat.
  assert (He1 : e <= 1) by nra.
  assert (Hqu : u1 * e <= u1) by nra.
  rewrite (volTerm_diff (u1 * e) Hq).
  pose proof (N_bounds (u1 * e) (conj Hq Hqu)) as [HNp HNu].
  pose proof N1_pos as HN.
  assert (Hs : 0 < (c + u1) ^ 2) by nra.
  assert (Hsq : 0 < (c + u1 * e) ^ 2) by nra.
  assert (Hc2 : 0 < c ^ 2) by nra.
  split.
  - (* lower *)
    apply Rle_trans with
      ((u1 * d * (8000 / 8001)) * (7999 / 8000 * N1) /
       (2 * (c + u1) ^ 2 * (c + u1) ^ 2)).
    { right. unfold slopeLo. field. lra. }
    apply Rdiv_le_mono.
    + split.
      * apply Rmult_le_pos; [|lra]. apply Rmult_le_pos; [|lra]. nra.
      * apply Rmult_le_compat.
        -- apply Rmult_le_pos; [|lra]. nra.
        -- lra.
        -- (* u1 * d * 8000/8001 <= u1 - u1 * e *)
           assert (1 - e >= d * (8000 / 8001)).
           { assert (d * e <= 1 - e) by lra.
             assert (d * (1 - d) <= d * e) by nra.
             nra. }
           nra.
        -- apply Rle_trans with ((1 - d) * N1).
           ++ apply Rmult_le_compat_r; lra.
           ++ apply N_lower; [lra|]. nra.
    + split.
      * apply Rmult_lt_0_compat; lra.
      * apply Rmult_le_compat_l; [lra|].
        assert (c + u1 * e <= c + u1) by lra.
        assert (0 < c + u1 * e) by lra.
        nra.
  - (* upper *)
    apply Rle_trans with (u1 * d * N1 / (2 * (c + u1) ^ 2 * c ^ 2)).
    2:{ right. unfold slopeHi. field. split; lra. }
    apply Rdiv_le_mono.
    + split.
      * apply Rmult_le_pos; [nra|lra].
      * apply Rmult_le_compat; [nra|lra|nra|lra].
    + split.
      * apply Rmult_lt_0_compat; lra.
      * apply Rmult_le_compat_l; [lra|]. nra.
Qed.

(** the drop of the term over the first bracket, for [e = exp (- 1/2)] *)
Lemma volTerm_half (e : R) :
  9 / 16 <= e <= 1 ->
  0 <= volTerm c D u1 - volTerm c D (u1 * e) <= 7 / 16 * mhi.
Proof.
  intros [Hlo Hhi].
  assert (Hq : 0 < u1 * e) by (apply Rmult_lt_0_compat; lra).
  assert (Hqu : u1 * e <= u1) by nra.
  rewrite (volTerm_diff (u1 * e) Hq).
  pose proof (N_bounds (u1 * e) (conj Hq Hqu)) as [HNp HNu].
  pose proof N1_pos as HN.
  assert (Hs : 0 < (c + u1) ^ 2) by nra.
  assert (Hsq : 0 < (c + u1 * e) ^ 2) by nra.
  assert (Hc2 : 0 < c ^ 2) by nra.
  split.
  - apply Rmult_le_pos.
    + apply Rmult_le_pos; [nra|lra].
    + left. apply Rinv_0_lt_compat. apply Rmult_lt_0_compat; lra.
  - apply Rle_trans with (7 / 16 * u1 * N1 / (2 * (c + u1) ^ 2 * c ^ 2)).
    2:{ right. unfold slopeHi. field. split; lra. }
    apply Rdiv_le_mono.
    + split.
      * apply Rmult_le_pos; [nra|lra].
      * apply Rmult_le_compat; [nra|lra|nra|lra].
    + split.
      * apply Rmult_lt_0_compat; lra.
      * apply Rmult_le_compat_l; [lra|]. nra.
Qed.

End VolTerm.

(** ** The two loops of [calculateNewStats] *)

Section BracketLoop.
Import GlickoMath.
Local Open Scope R_scope.

(** The first loop stops at the first [k], counting up from its start,
    at which [f (a - k * TAU)] is not negative. *)
Lemma bracketLoop_first (F : R -> R) (a : R) (fuel : nat) (k0 k : Z) :
  bracketLoop fuel F a k0 = Some k ->
  (k0 <= k)%Z /\ ~ F (a - IZR k * TAU) < 0 /\
  forall j, (k0 <= j < k)%Z -> F (a - IZR j * TAU) < 0.
Proof.
  revert k0. induction fuel as [|fuel IH]; intros k0; simpl; [discriminate|].
  destruct (Rlt_dec (F (a - IZR k0 * TAU)) 0) as [Hneg|Hpos].
  - intros Hk. destruct (IH _ Hk) as [Hle [Hstop Hbefore]].
    split; [lia|]. split; [exact Hstop|].
    intros j Hj. destruct (Z.eq_dec j k0) as [->|Hne]; [exact Hneg|].
    apply Hbefore. lia.
  - intros [= <-]. split; [lia|]. split; [exact Hpos|]. intros j Hj. lia.
Qed.

Lemma TAU_half : TAU = 1 / 2.
Proof. unfold TAU. lra. Qed.

Lemma f_offLine (delta ph v a x : R) :
  0 < ph ^ 2 + v ->
  f delta ph v a x
  = 4 * (a - x) - volTerm (ph ^ 2 + v) (ph ^ 2 + v - delta ^ 2) (exp x).
Proof.
  intros Hc. unfold f, volTerm. cbv zeta. rewrite TAU_half.
  pose proof (exp_pos x) as He. field. lra.
Qed.

Lemma volTerm_lt_half (c D u : R) :
  0 < c -> 0 <= D <= c -> 0 < u -> 0 <= volTerm c D u < 1 / 2.
Proof.
  intros Hc HD Hu. unfold volTerm.
  assert (Hs : 0 < 2 * (c + u) ^ 2) by nra.
  split.
  - apply Rmult_le_pos; [nra | left; now apply Rinv_0_lt_compat].
  - apply Rmult_lt_reg_r with (2 * (c + u) ^ 2); [exact Hs|].
    replace (u * (D + u) / (2 * (c + u) ^ 2) * (2 * (c + u) ^ 2))
      with (u * (D + u)) by (field; lra).
    nra.
Qed.

(** Below [a], [f] is positive when [delta^2 <= phi^2 + v]. *)
Lemma f_pos_below (delta ph v a x : R) :
  0 < v -> delta ^ 2 <= ph ^ 2 + v -> x <= a - 1 / 2 ->
  3 / 2 < f delta ph v a x.
Proof.
  intros Hv Hd Hx.
  assert (Hc : 0 < ph ^ 2 + v) by nra.
  rewrite f_offLine by exact Hc.
  pose proof (volTerm_lt_half (ph ^ 2 + v) (ph ^ 2 + v - delta ^ 2) (exp x)
                Hc) as H.
  destruct H as [_ H]; [nra | apply exp_pos | lra].
Qed.

End BracketLoop.

Section FuelFacts.
Import GlickoMath.
Local Open Scope R_scope.

(** More fuel does not change a result. *)
Lemma bracketLoop_fuel (F : R -> R) (a : R) (n m : nat) (k0 k : Z) :
  (n <= m)%nat -> bracketLoop n F a k0 = Some k ->
  bracketLoop m F a k0 = Some k.
Proof.
  revert m k0. induction n as [|n IH]; intros m k0 Hle; simpl;
    [discriminate|].
  destruct m as [|m]; [lia|]. simpl.
  destruct (Rlt_dec (F (a - IZR k0 * TAU)) 0); [|trivial].
  apply IH. lia.
Qed.

Lemma illinois_fuel (F : R -> R) (n m : nat) (A fA B fB r : R) :
  (n <= m)%nat -> illinois n F A fA B fB = Some r ->
  illinois m F A fA B fB = Some r.
Proof.
  revert m A fA B fB. induction n as [|n IH]; intros m A fA B fB Hle; simpl;
    [discriminate|].
  destruct m as [|m]; [lia|]. simpl.
  destruct (Rgt_dec (Rabs (B - A)) 0.000001); [|trivial].
  destruct (Rlt_dec _ 0); apply IH; lia.
Qed.

Lemma calculateNewStats_fuel (n m : nat)
  (player opponent r : GlickoPlayer) (score : Score) :
  (n <= m)%nat ->
  calculateNewStats n player opponent score = Some r ->
  calculateNewStats m player opponent score = Some r.
Proof.
  intros Hle. rewrite !calculateNewStats_eq.
  unfold initialBOf, initialB, solveOf.
  destruct (Rgt_dec _ _).
  - destruct (illinois n _ _ _ _ _) as [A|] eqn:HA; [|discriminate].
    now rewrite (illinois_fuel _ n m _ _ _ _ A Hle HA).
  - destruct (bracketLoop n _ _ 1) as [k|] eqn:Hk; [|discriminate].
    rewrite (bracketLoop_fuel _ _ n m 1 k Hle Hk).
    destruct (illinois n _ _ _ _ _) as [A|] eqn:HA; [|discriminate].
    now rewrite (illinois_fuel _ n m _ _ _ _ A Hle HA).
Qed.

(** The result does not depend on the fuel. *)
Lemma calculateNewStats_deterministic (n m : nat)
  (player opponent r1 r2 : GlickoPlayer) (score : Score) :
  calculateNewStats n player opponent score = Some r1 ->
  calculateNewStats m player opponent score = Some r2 ->
  r1 = r2.
Proof.
  intros H1 H2.
  apply (calculateNewStats_fuel n (Nat.max n m)) in H1; [|lia].
  apply (calculateNewStats_fuel m (Nat.max n m)) in H2; [|lia].
  congruence.
Qed.

End FuelFacts.

Section SolverTermination.
Import GlickoMath.
Local Open Scope R_scope.

Lemma exp_neg_bounds (d : R) :
  0 <= d -> 0 < exp (- d) /\ 1 - d <= exp (- d) /\ exp (- d) * (1 + d) <= 1.
Proof.
  intros Hd. pose proof (exp_pos (- d)) as Hp.
  split; [exact Hp|]. split.
  - pose proof (exp_ineq1_le (- d)). lra.
  - pose proof (exp_ineq1_le d) as H1.
    assert (H2 : exp (- d) * exp d = 1).
    { rewrite <- exp_plus. replace (- d + d) with 0 by ring. apply exp_0. }
    nra.
Qed.

Lemma exp_neg_half : 9 / 16 <= exp (- (1 / 2)) <= 1.
Proof.
  pose proof (exp_ineq1_le (- (1 / 4))) as H1.
  assert (H2 : exp (- (1 / 2)) = exp (- (1 / 4)) * exp (- (1 / 4))).
  { rewrite <- exp_plus. f_equal. lra. }
  destruct (exp_neg_bounds (1 / 2)) as [H3 [_ H4]]; [lra|].
  split; nra.
Qed.

Lemma exp_below (a d : R) : exp (a - d) = exp a * exp (- d).
Proof. rewrite <- exp_plus. f_equal. Qed.

(** The second loop on the function of the solver, when [exp a] is
    small against [c]: it returns within three evaluations of its
    condition, with a value just below [a]. *)
Lemma illinois_small_term (F : R -> R) (c D a : R) :
  0 < c -> 0 <= D <= c -> 1000 * exp a <= c ->
  (forall x, F x = 4 * (a - x) - volTerm c D (exp x)) ->
  exists A,
    illinois 3 F a (F a) (a - 1 / 2) (F (a - 1 / 2)) = Some A /\
    a - 1 / 8000 <= A <= a.
Proof.
  intros Hc HD Hsmall HF.
  pose proof (exp_pos a) as Hu.
  assert (HT : forall x, offLine F a x = volTerm c D (exp x)).
  { intros x. unfold offLine. rewrite HF. ring. }
  assert (HT0 : 0 < volTerm c D (exp a))
    by (apply volTerm_pos; assumption).
  assert (HT1 : volTerm c D (exp a) <= 1 / 2000)
    by (apply volTerm_small; assumption).
  assert (Hh : 0 <= volTerm c D (exp a)
                    - volTerm c D (exp a * exp (- (1 / 2)))
               <= 7 / 16 * slopeHi c D (exp a)).
  { apply volTerm_half; try assumption. apply exp_neg_half. }
  destruct Hh as [Hh0 Hh1].
  assert (Hgap : 15 / 16 * slopeHi c D (exp a) < slopeLo c D (exp a))
    by (apply mlo_mhi; assumption).
  assert (Hms : slopeHi c D (exp a) <= 1 / 1000)
    by (apply mhi_small; assumption).
  assert (Hmp : 0 < slopeHi c D (exp a))
    by (apply mhi_pos; assumption).
  destruct (near_line_terminates F a (slopeLo c D (exp a))
              (slopeHi c D (exp a))) as [A [HA HAr]].
  - rewrite HT. exact HT0.
  - rewrite HT. lra.
  - rewrite !HT, exp_below. lra.
  - apply mlo_pos; assumption.
  - intros d [Hd0 Hd1]. rewrite !HT in *. rewrite exp_below.
    destruct (exp_neg_bounds d Hd0) as [He0 [He1 He2]].
    apply volTerm_slope; try assumption. lra.
  - rewrite !HT, exp_below. lra.
  - rewrite HT. nra.
  - exists A. split; [exact HA|]. rewrite HT in HAr. lra.
Qed.

End SolverTermination.

(** ** [calculateNewStats] returns *)

Section EngineReturns.
Import GlickoMath.
Local Open Scope R_scope.

(** When [delta^2 <= phi^2 + v], the first loop leaves [k = 1] at once:
    [B = a - TAU], where [f] is positive. *)
Lemma initialBOf_else (fuel : nat)
  (player opponent : GlickoPlayer) (score : Score) :
  deltaOf player opponent score ^ 2
  <= phi (toGlickoScale player) ^ 2 + varianceOf player opponent ->
  initialBOf (S fuel) player opponent score
  = Some (ln (vol player ^ 2) - 1 * TAU) /\
  0 < fOf player opponent score (ln (vol player ^ 2) - 1 * TAU).
Proof.
  intros Hd.
  pose proof (varianceOf_ge_4 player opponent) as Hv.
  assert (Hf : 3 / 2 < fOf player opponent score (ln (vol player ^ 2) - 1 * TAU)).
  { unfold fOf. apply f_pos_below; [lra | exact Hd |].
    rewrite TAU_half. simpl. lra. }
  split; [|lra].
  unfold initialBOf, initialB.
  destruct (Rgt_dec _ _) as [Hgt|_]; [lra|].
  cbn [bracketLoop].
  change (sigma (toGlickoScale player)) with (vol player).
  destruct (Rlt_dec _ 0) as [Hneg|_]; [lra|reflexivity].
Qed.

(** When [delta^2 > phi^2 + v], there is no first loop. *)
Lemma initialBOf_then (fuel : nat)
  (player opponent : GlickoPlayer) (score : Score) :
  deltaOf player opponent score ^ 2
  > phi (toGlickoScale player) ^ 2 + varianceOf player opponent ->
  initialBOf fuel player opponent score
  = Some (ln (deltaOf player opponent score ^ 2
              - phi (toGlickoScale player) ^ 2
              - varianceOf player opponent)).
Proof.
  intros Hd. unfold initialBOf, initialB.
  destruct (Rgt_dec _ _) as [_|Hn]; [reflexivity|contradiction].
Qed.

(** For a volatility that is small against [phi^2 + v], and
    [delta^2 <= phi^2 + v], the update returns with three evaluations of
    each loop condition; the final [A] is just below [ln (vol^2)]. *)
Lemma calculateNewStats_returns
  (player opponent : GlickoPlayer) (score : Score) :
  vol player <> 0 ->
  deltaOf player opponent score ^ 2
  <= phi (toGlickoScale player) ^ 2 + varianceOf player opponent ->
  1000 * vol player ^ 2
  <= phi (toGlickoScale player) ^ 2 + varianceOf player opponent ->
  exists A,
    ln (vol player ^ 2) - 1 / 8000 <= A <= ln (vol player ^ 2) /\
    calculateNewStats 3 player opponent score
    = Some (newStatsOf player opponent score A).
Proof.
  intros Hvol Hd Hsmall.
  pose proof (varianceOf_ge_4 player opponent) as Hv.
  assert (Hs2 : 0 < vol player ^ 2).
  { assert (0 <= vol player ^ 2) by apply pow2_ge_0.
    assert (vol player ^ 2 <> 0) by (apply pow_nonzero; exact Hvol). lra. }
  assert (Hc : 0 < phi (toGlickoScale player) ^ 2 + varianceOf player opponent).
  { pose proof (pow2_ge_0 (phi (toGlickoScale player))). lra. }
  destruct (illinois_small_term (fOf player opponent score)
              (phi (toGlickoScale player) ^ 2 + varianceOf player opponent)
              (phi (toGlickoScale player) ^ 2 + varianceOf player opponent
               - deltaOf player opponent score ^ 2)
              (ln (vol player ^ 2))) as [A [HA HAr]].
  - exact Hc.
  - pose proof (pow2_ge_0 (deltaOf player opponent score)). lra.
  - rewrite exp_ln by exact Hs2. exact Hsmall.
  - intros x. unfold fOf. now rewrite f_offLine.
  - exists A. split; [exact HAr|].
    rewrite calculateNewStats_eq.
    destruct (initialBOf_else 2 player opponent score Hd) as [-> _].
    unfold solveOf.
    change (sigma (toGlickoScale player)) with (vol player).
    replace (ln (vol player ^ 2) - 1 * TAU) with (ln (vol player ^ 2) - 1 / 2)
      by (rewrite TAU_half; lra).
    now rewrite HA.
Qed.

Lemma scoreValue_range (score : Score) :
  (scoreValue score - 1 / 2) ^ 2 <= 1 / 4.
Proof. destruct score; simpl; lra. Qed.

(** Between two items of equal rating [delta^2 <= v]. *)
Lemma deltaOf_equal_rating
  (player opponent : GlickoPlayer) (score : Score) :
  rating player = rating opponent ->
  deltaOf player opponent score ^ 2 <= varianceOf player opponent.
Proof.
  intros Heq. unfold deltaOf. cbv zeta.
  replace (mu (toGlickoScale player)) with (mu (toGlickoScale opponent))
    by (unfold toGlickoScale; simpl; now rewrite Heq).
  rewrite E_equal_mu, (varianceOf_equal_rating _ _ Heq).
  pose proof (g_bounds (phi (toGlickoScale opponent))) as HG.
  pose proof (scoreValue_range score) as Hs.
  set (G := g (phi (toGlickoScale opponent))) in *.
  set (s := scoreValue score) in *.
  replace ((4 / G ^ 2 * G * (s - 1 / 2)) ^ 2)
    with (4 / G ^ 2 * (4 * (s - 1 / 2) ^ 2)) by (field; lra).
  rewrite <- (Rmult_1_r (4 / G ^ 2)) at 2.
  apply Rmult_le_compat_l; [|lra].
  left. apply Rdiv_lt_0_compat; [lra|nra].
Qed.

(** Two items of equal rating, the updated one with a volatility of at
    most [sqrt 0.004] (above 0.063): the update returns. *)
Lemma calculateNewStats_returns_equal_rating
  (player opponent : GlickoPlayer) (score : Score) :
  rating player = rating opponent ->
  vol player <> 0 -> vol player ^ 2 <= 4 / 1000 ->
  exists A,
    ln (vol player ^ 2) - 1 / 8000 <= A <= ln (vol player ^ 2) /\
    calculateNewStats 3 player opponent score
    = Some (newStatsOf player opponent score A).
Proof.
  intros Heq Hvol Hsmall.
  pose proof (varianceOf_ge_4 player opponent) as Hv.
  pose proof (pow2_ge_0 (phi (toGlickoScale player))) as Hp.
  pose proof (deltaOf_equal_rating player opponent score Heq) as Hd.
  apply calculateNewStats_returns; [exact Hvol | lra | lra].
Qed.

End EngineReturns.

(** ** What the solver depends on *)

Section SolverCongruence.
Import GlickoMath.
Local Open Scope R_scope.

Lemma bracketLoop_ext (F F' : R -> R) (a : R) (fuel : nat) (k : Z) :
  (forall x, F x = F' x) ->
  bracketLoop fuel F a k = bracketLoop fuel F' a k.
Proof.
  intros Hext. revert k. induction fuel as [|fuel IH]; intros k; simpl;
    [reflexivity|].
  rewrite Hext. destruct (Rlt_dec _ 0); [apply IH | reflexivity].
Qed.

Lemma illinois_ext (F F' : R -> R) (fuel : nat) (A fA B fB : R) :
  (forall x, F x = F' x) ->
  illinois fuel F A fA B fB = illinois fuel F' A fA B fB.
Proof.
  intros Hext. revert A fA B fB.
  induction fuel as [|fuel IH]; intros A fA B fB; simpl; [reflexivity|].
  destruct (Rgt_dec _ _); [|reflexivity].
  rewrite Hext. destruct (Rlt_dec _ 0); apply IH.
Qed.

(** [f] reads [delta] and [phi] through their squares only. *)
Lemma f_squares (delta delta' ph ph' v a x : R) :
  delta ^ 2 = delta' ^ 2 -> ph ^ 2 = ph' ^ 2 ->
  f delta ph v a x = f delta' ph' v a x.
Proof. intros Hd Hp. unfold f. cbv zeta. now rewrite Hd, Hp. Qed.

Lemma calculateNewStats_finalAOf (fuel : nat)
  (player opponent : GlickoPlayer) (score : Score) :
  calculateNewStats fuel player opponent score =
  match finalAOf fuel player opponent score with
  | None => None
  | Some A => Some (newStatsOf player opponent score A)
  end.
Proof.
  rewrite calculateNewStats_eq. unfold finalAOf.
  now destruct (initialBOf fuel player opponent score).
Qed.

(** Two calls whose [delta^2], [phi^2], [v] and [sigma^2] agree run the
    two loops alike. *)
Lemma finalAOf_congruence (fuel : nat)
  (p o p' o' : GlickoPlayer) (s s' : Score) :
  deltaOf p o s ^ 2 = deltaOf p' o' s' ^ 2 ->
  phi (toGlickoScale p) ^ 2 = phi (toGlickoScale p') ^ 2 ->
  varianceOf p o = varianceOf p' o' ->
  sigma (toGlickoScale p) ^ 2 = sigma (toGlickoScale p') ^ 2 ->
  finalAOf fuel p o s = finalAOf fuel p' o' s'.
Proof.
  intros Hd Hp Hv Hs.
  assert (Hf : forall x, fOf p o s x = fOf p' o' s' x).
  { intros x. unfold fOf. rewrite Hv, Hs. now apply f_squares. }
  unfold finalAOf, initialBOf, initialB, solveOf.
  rewrite Hd, Hp, Hv, Hs.
  destruct (Rgt_dec _ _).
  - rewrite !Hf. apply illinois_ext. exact Hf.
  - rewrite (bracketLoop_ext _ _ _ _ _ Hf).
    destruct (bracketLoop _ _ _ _); [|reflexivity].
    rewrite !Hf. apply illinois_ext. exact Hf.
Qed.

End SolverCongruence.

(** ** The closing assignments *)

Section ClosingFacts.
Import GlickoMath.
Local Open Scope R_scope.

(** [newPhi] is positive and its square is the harmonic combination of
    [phi^2 + newSigma^2] and [v]. *)
Lemma newPhi_square (ph v ns : R) :
  0 < v -> 0 < ns ->
  0 < 1 / sqrt (1 / sqrt (ph ^ 2 + ns ^ 2) ^ 2 + 1 / v) /\
  (1 / sqrt (1 / sqrt (ph ^ 2 + ns ^ 2) ^ 2 + 1 / v)) ^ 2
  = v * (ph ^ 2 + ns ^ 2) / (v + ph ^ 2 + ns ^ 2).
Proof.
  intros Hv Hns.
  assert (Hq : 0 < ph ^ 2 + ns ^ 2) by (pose proof (pow2_ge_0 ph); nra).
  rewrite pow2_sqrt by lra.
  assert (Hin : 0 < 1 / (ph ^ 2 + ns ^ 2) + 1 / v).
  { apply Rplus_lt_0_compat; apply Rdiv_lt_0_compat; lra. }
  pose proof (sqrt_lt_R0 _ Hin) as Hs.
  split.
  - apply Rdiv_lt_0_compat; lra.
  - replace ((1 / sqrt (1 / (ph ^ 2 + ns ^ 2) + 1 / v)) ^ 2)
      with (1 / sqrt (1 / (ph ^ 2 + ns ^ 2) + 1 / v) ^ 2) by (field; lra).
    rewrite pow2_sqrt by lra. field. repeat split; lra.
Qed.

Lemma vol_newStatsOf (p o : GlickoPlayer) (s : Score) (A : R) :
  vol (newStatsOf p o s A) = exp (A / 2) /\ 0 < vol (newStatsOf p o s A).
Proof. simpl. split; [reflexivity | apply exp_pos]. Qed.

Lemma vol_newStatsOf_square (p o : GlickoPlayer) (s : Score) (A : R) :
  vol (newStatsOf p o s A) ^ 2 = exp A.
Proof.
  simpl. rewrite Rmult_1_r, <- exp_plus. f_equal. lra.
Qed.

(** The new deviation, in Glicko-2 units. *)
Lemma rd_newStatsOf (p o : GlickoPlayer) (s : Score) (A : R) :
  0 < rd (newStatsOf p o s A) /\
  (rd (newStatsOf p o s A) / GLICKO_SCALE) ^ 2
  = varianceOf p o
    * (phi (toGlickoScale p) ^ 2 + vol (newStatsOf p o s A) ^ 2)
    / (varianceOf p o + phi (toGlickoScale p) ^ 2
       + vol (newStatsOf p o s A) ^ 2).
Proof.
  pose proof (varianceOf_ge_4 p o) as Hv.
  pose proof GLICKO_SCALE_pos as HS.
  destruct (newPhi_square (phi (toGlickoScale p)) (varianceOf p o)
              (exp (A / 2))) as [Hpos Hsq]; [lra | apply exp_pos |].
  unfold newStatsOf, toStandardScale. cbv zeta.
  cbn [rd vol]. fold (varianceOf p o).
  split.
  - apply Rmult_lt_0_compat; assumption.
  - rewrite <- Hsq.
    set (np := 1 / sqrt _). field. lra.
Qed.

(** The new rating moves by [newPhi^2 * g * (score - E)], in Glicko-2
    units. *)
Lemma rating_newStatsOf (p o : GlickoPlayer) (s : Score) (A : R) :
  rating (newStatsOf p o s A)
  = rating p
    + (rd (newStatsOf p o s A) / GLICKO_SCALE) ^ 2
      * g (phi (toGlickoScale o))
      * (scoreValue s
         - E (mu (toGlickoScale p)) (mu (toGlickoScale o))
             (phi (toGlickoScale o)))
      * GLICKO_SCALE.
Proof.
  pose proof GLICKO_SCALE_pos as HS.
  unfold newStatsOf, toStandardScale. cbv zeta. cbn [rating rd].
  set (np := 1 / sqrt _).
  unfold toGlickoScale at 1. cbn [mu]. field. lra.
Qed.

Lemma E_equal_rating (p o : GlickoPlayer) :
  rating p = rating o ->
  E (mu (toGlickoScale p)) (mu (toGlickoScale o)) (phi (toGlickoScale o))
  = 1 / 2.
Proof.
  intros Heq.
  replace (mu (toGlickoScale p)) with (mu (toGlickoScale o))
    by (unfold toGlickoScale; simpl; now rewrite Heq).
  apply E_equal_mu.
Qed.

(** The step of the rating between two items of equal rating. *)
Lemma rating_step_equal (p o : GlickoPlayer) (s : Score) (A : R) :
  rating p = rating o ->
  exists k, 0 < k /\
    k = (rd (newStatsOf p o s A) / GLICKO_SCALE) ^ 2
        * g (phi (toGlickoScale o)) * GLICKO_SCALE /\
    rating (newStatsOf p o s A) = rating p + k * (scoreValue s - 1 / 2).
Proof.
  intros Heq.
  pose proof GLICKO_SCALE_pos as HS.
  pose proof (g_bounds (phi (toGlickoScale o))) as HG.
  destruct (rd_newStatsOf p o s A) as [Hrd _].
  eexists. split; [|split; [reflexivity|]].
  - apply Rmult_lt_0_compat; [|exact HS].
    apply Rmult_lt_0_compat; [|lra].
    assert (0 < rd (newStatsOf p o s A) / GLICKO_SCALE)
      by (apply Rdiv_lt_0_compat; assumption).
    nra.
  - rewrite rating_newStatsOf, (E_equal_rating p o Heq). ring.
Qed.

End ClosingFacts.

(** ** Signs of the deviation and of the volatility *)

Section SignFacts.
Import GlickoMath.
Local Open Scope R_scope.







End SignFacts.

(** ** The rating update: the properties of the specification *)

Section UpdateProperties.
Import GlickoMath Examples.
Local Open Scope R_scope.

Lemma fresh_small : vol fresh <> 0 /\ vol fresh ^ 2 <= 4 / 1000.
Proof. simpl. split; lra. Qed.





(** C3 (as amended). The solver starts with [A = ln (sigma^2)].  When
    [delta^2 > phi^2 + v], [B = ln (delta^2 - phi^2 - v)].  Otherwise
    [B = a - k * TAU] for the smallest positive integer [k] at which
    [f (a - k * TAU)] is not negative, and that is [k = 1]. *)
Theorem initial_bracket (p o : GlickoPlayer) (s : Score) :
  (forall fuel B,
     solveOf fuel p o s B
     = illinois fuel (fOf p o s) (ln (vol p ^ 2))
         (fOf p o s (ln (vol p ^ 2))) B (fOf p o s B)) /\
  (deltaOf p o s ^ 2 > phi (toGlickoScale p) ^ 2 + varianceOf p o ->
   forall fuel,
     initialBOf fuel p o s
     = Some (ln (deltaOf p o s ^ 2 - phi (toGlickoScale p) ^ 2
                 - varianceOf p o))) /\
  (~ deltaOf p o s ^ 2 > phi (toGlickoScale p) ^ 2 + varianceOf p o ->
   (forall fuel,
      initialBOf (S fuel) p o s = Some (ln (vol p ^ 2) - 1 * TAU)) /\
   ~ fOf p o s (ln (vol p ^ 2) - 1 * TAU) < 0 /\
   (forall fuel B,
      initialBOf fuel p o s = Some B ->
      exists k, (1 <= k)%Z /\
        B = ln (vol p ^ 2) - IZR k * TAU /\
        ~ fOf p o s (ln (vol p ^ 2) - IZR k * TAU) < 0 /\
        forall j, (1 <= j < k)%Z ->
          fOf p o s (ln (vol p ^ 2) - IZR j * TAU) < 0)).
Proof.
  split; [reflexivity|]. split.
  - intros Hd fuel. now apply initialBOf_then.
  - intros Hd.
    assert (Hle : deltaOf p o s ^ 2
                  <= phi (toGlickoScale p) ^ 2 + varianceOf p o) by lra.
    split; [|split].
    + intros fuel. apply (initialBOf_else fuel p o s Hle).
    + pose proof (proj2 (initialBOf_else 0 p o s Hle)). lra.
    + intros fuel B. unfold initialBOf, initialB.
      destruct (Rgt_dec _ _) as [Hgt|_]; [contradiction|].
      change (sigma (toGlickoScale p)) with (vol p).
      destruct (bracketLoop fuel _ _ 1) as [k|] eqn:Hk; [|discriminate].
      intros [= <-]. exists k.
      destruct (bracketLoop_first _ _ _ _ _ Hk) as [H1 [H2 H3]].
      repeat split; assumption.
Qed.

(** C3 fails: between two new items and a draw, the first loop stops at
    [k = 1], where [f] is not negative. *)
Lemma initial_bracket_not_negative :
  ~ deltaOf fresh fresh Draw ^ 2
    > phi (toGlickoScale fresh) ^ 2 + varianceOf fresh fresh /\
  initialBOf 3 fresh fresh Draw = Some (ln (vol fresh ^ 2) - 1 * TAU) /\
  ~ fOf fresh fresh Draw (ln (vol fresh ^ 2) - 1 * TAU) < 0.
Proof.
  pose proof (deltaOf_equal_rating fresh fresh Draw eq_refl) as Hd.
  pose proof (pow2_ge_0 (phi (toGlickoScale fresh))) as Hp.
  assert (Hle : deltaOf fresh fresh Draw ^ 2
                <= phi (toGlickoScale fresh) ^ 2 + varianceOf fresh fresh)
    by lra.
  destruct (initialBOf_else 2 fresh fresh Draw Hle) as [HB Hf].
  split; [lra|]. split; [exact HB|lra].
Qed.

End UpdateProperties.

Section RatingProperties.
Import GlickoMath Examples.
Local Open Scope R_scope.

Lemma equal_states (p o : GlickoPlayer) :
  rating p = rating o -> rd p = rd o -> vol p = vol o -> p = o.
Proof. destruct p, o; simpl; intros; subst; reflexivity. Qed.

(** Against itself a state runs the two loops alike for a win and for a
    loss. *)
Lemma finalAOf_win_loss (fuel : nat) (p : GlickoPlayer) :
  finalAOf fuel p p Win = finalAOf fuel p p Loss.
Proof.
  apply finalAOf_congruence; try reflexivity.
  unfold deltaOf. cbv zeta. rewrite (E_equal_rating p p eq_refl).
  simpl scoreValue. field.
Qed.

Lemma calculateNewStats_Some_finalAOf (fuel : nat)
  (p o r : GlickoPlayer) (s : Score) :
  calculateNewStats fuel p o s = Some r ->
  exists A, finalAOf fuel p o s = Some A /\ r = newStatsOf p o s A.
Proof.
  rewrite calculateNewStats_finalAOf.
  destruct (finalAOf fuel p o s) as [A|]; [|discriminate].
  intros [= <-]. now exists A.
Qed.

(** Two states with equal rating, equal deviation and equal non-zero
    volatility: whenever the update returns, the one updated with score
    1 has a strictly greater rating and the one updated with score 0 a
    strictly smaller one, and the two changes are equal in magnitude.
    For a volatility of at most [sqrt 0.004], which includes two items
    at 1500 / 350 / 0.06, both updates return.  (For larger volatilities
    the return of the second loop is not settled here.) *)
Theorem equal_states_win_raises_loss_lowers (p o : GlickoPlayer) :
  rating p = rating o -> rd p = rd o -> vol p = vol o -> vol p <> 0 ->
  (forall fuel w,
     calculateNewStats fuel p o Win = Some w -> rating p < rating w) /\
  (forall fuel l,
     calculateNewStats fuel p o Loss = Some l -> rating l < rating p) /\
  (forall fuel w l,
     calculateNewStats fuel p o Win = Some w ->
     calculateNewStats fuel o p Loss = Some l ->
     rating l < rating o /\ rating w - rating p = rating o - rating l) /\
  (vol p ^ 2 <= 4 / 1000 ->
   exists w l,
     calculateNewStats 3 p o Win = Some w /\
     calculateNewStats 3 o p Loss = Some l /\
     rating p < rating w /\ rating l < rating o /\
     rating w - rating p = rating o - rating l).
Proof.
  intros Hr Hd Hv Hz.
  assert (Hwin : forall A, rating p < rating (newStatsOf p o Win A)).
  { intros A. destruct (rating_step_equal p o Win A Hr) as [k [Hk [_ ->]]].
    simpl scoreValue. lra. }
  assert (Hloss : forall A, rating (newStatsOf p o Loss A) < rating p).
  { intros A. destruct (rating_step_equal p o Loss A Hr) as [k [Hk [_ ->]]].
    simpl scoreValue. lra. }
  assert (Hsame : forall A,
            rating (newStatsOf p o Win A) - rating p
            = rating o - rating (newStatsOf o p Loss A)).
  { intros A. rewrite <- (equal_states p o Hr Hd Hv).
    destruct (rating_step_equal p p Win A eq_refl) as [k [_ [Ek ->]]].
    destruct (rating_step_equal p p Loss A eq_refl) as [k' [_ [Ek' ->]]].
    assert (k = k') by (rewrite Ek, Ek'; reflexivity).
    subst k'. simpl scoreValue. lra. }
  assert (P3 : forall fuel w l,
            calculateNewStats fuel p o Win = Some w ->
            calculateNewStats fuel o p Loss = Some l ->
            rating l < rating o /\
            rating w - rating p = rating o - rating l).
  { intros fuel w l Hw Hl.
    rewrite <- (equal_states p o Hr Hd Hv) in *.
    apply calculateNewStats_Some_finalAOf in Hw, Hl.
    destruct Hw as [A [HA ->]]. destruct Hl as [A' [HA' ->]].
    rewrite finalAOf_win_loss in HA.
    assert (A' = A) by congruence. subst A'.
    split; [apply Hloss | apply Hsame]. }
  split; [|split; [|split]].
  - intros fuel w H. apply calculateNewStats_Some in H.
    destruct H as [B [A [_ [_ ->]]]]. apply Hwin.
  - intros fuel l H. apply calculateNewStats_Some in H.
    destruct H as [B [A [_ [_ ->]]]]. apply Hloss.
  - exact P3.
  - intros Hs.
    destruct (calculateNewStats_returns_equal_rating p o Win Hr Hz Hs)
      as [A [_ HA]].
    destruct (calculateNewStats_returns_equal_rating o p Loss)
      as [A' [_ HA']]; [congruence | congruence | congruence |].
    destruct (P3 3%nat _ _ HA HA') as [Hl Heq].
    exists (newStatsOf p o Win A), (newStatsOf o p Loss A').
    repeat split; try assumption. apply Hwin.
Qed.

Lemma equal_states_win_raises_loss_lowers_witness :
  exists w l,
    calculateNewStats 3 fresh fresh Win = Some w /\
    calculateNewStats 3 fresh fresh Loss = Some l /\
    1500 < rating w /\ rating l < 1500 /\
    rating w - 1500 = 1500 - rating l.
Proof.
  apply (proj2 (proj2 (proj2
    (equal_states_win_raises_loss_lowers fresh fresh
       eq_refl eq_refl eq_refl (proj1 fresh_small))))).
  exact (proj2 fresh_small).
Defined.

End RatingProperties.

Section DrawAndDeviation.
Import GlickoMath Examples.
Local Open Scope R_scope.

(** Between two states of equal rating the expected score is one half,
    so a draw leaves the rating as it is (within every epsilon)
    whenever the update returns; it returns for a non-zero volatility
    of at most [sqrt 0.004].  (For larger volatilities the return of
    the second loop is not settled here.) *)
Theorem equal_rating_draw_keeps_rating (p o : GlickoPlayer) :
  rating p = rating o ->
  E (mu (toGlickoScale p)) (mu (toGlickoScale o)) (phi (toGlickoScale o))
  = 1 / 2 /\
  (forall fuel r,
     calculateNewStats fuel p o Draw = Some r ->
     rating r = rating p /\
     forall eps, 0 < eps -> Rabs (rating r - rating p) < eps) /\
  (vol p <> 0 -> vol p ^ 2 <= 4 / 1000 ->
   exists r, calculateNewStats 3 p o Draw = Some r /\ rating r = rating p).
Proof.
  intros Hr.
  assert (Hdraw : forall A, rating (newStatsOf p o Draw A) = rating p).
  { intros A. destruct (rating_step_equal p o Draw A Hr) as [k [_ [_ ->]]].
    simpl scoreValue. lra. }
  split; [now apply E_equal_rating|]. split.
  - intros fuel r H. apply calculateNewStats_Some in H.
    destruct H as [B [A [_ [_ ->]]]]. split; [apply Hdraw|].
    intros eps Heps. rewrite Hdraw.
    replace (rating p - rating p) with 0 by ring. now rewrite Rabs_R0.
  - intros Hz Hs.
    destruct (calculateNewStats_returns_equal_rating p o Draw Hr Hz Hs)
      as [A [_ HA]].
    exists (newStatsOf p o Draw A). split; [exact HA | apply Hdraw].
Qed.

Lemma equal_rating_draw_keeps_rating_witness :
  exists r, calculateNewStats 3 fresh settled Draw = Some r /\
            rating r = rating fresh.
Proof.
  apply (proj2 (proj2
    (equal_rating_draw_keeps_rating fresh settled eq_refl))).
  - exact (proj1 fresh_small).
  - exact (proj2 fresh_small).
Defined.

(** The new deviation against the old one. *)
Lemma rd_newStatsOf_compare (p o : GlickoPlayer) (s : Score) (A : R) :
  0 < rd p ->
  rd (newStatsOf p o s A)
  < GLICKO_SCALE
    * sqrt (phi (toGlickoScale p) ^ 2 + vol (newStatsOf p o s A) ^ 2) /\
  (rd (newStatsOf p o s A) <= rd p <->
   vol (newStatsOf p o s A) ^ 2
   * (varianceOf p o - phi (toGlickoScale p) ^ 2)
   <= phi (toGlickoScale p) ^ 4).
Proof.
  intros Hrd.
  pose proof GLICKO_SCALE_pos as HS.
  pose proof (varianceOf_ge_4 p o) as Hv.
  destruct (rd_newStatsOf p o s A) as [Hpos Hsq].
  destruct (vol_newStatsOf p o s A) as [_ Hvol].
  set (r := newStatsOf p o s A) in *.
  set (v := varianceOf p o) in *.
  assert (Hphi : phi (toGlickoScale p) = rd p / GLICKO_SCALE) by reflexivity.
  assert (Hphi0 : 0 < phi (toGlickoScale p)).
  { rewrite Hphi. now apply Rdiv_lt_0_compat. }
  set (ph := phi (toGlickoScale p)) in *.
  set (x := rd r / GLICKO_SCALE) in *.
  assert (Hx0 : 0 < x) by (unfold x; now apply Rdiv_lt_0_compat).
  assert (Hrdx : rd r = GLICKO_SCALE * x) by (unfold x; field; lra).
  assert (Hrdp : rd p = GLICKO_SCALE * ph) by (rewrite Hphi; field; lra).
  set (q := ph ^ 2 + vol r ^ 2) in *.
  assert (Hq : 0 < q) by (unfold q; nra).
  assert (Hx2 : x ^ 2 * (v + q) = v * q).
  { replace (v + ph ^ 2 + vol r ^ 2) with (v + q) in Hsq by (unfold q; ring).
    rewrite Hsq. field. lra. }
  split.
  - rewrite Hrdx. apply Rmult_lt_compat_l; [exact HS|].
    assert (Hlt : x ^ 2 < q) by nra.
    rewrite <- (sqrt_pow2 x) by lra.
    apply sqrt_lt_1; [apply pow2_ge_0 | lra | exact Hlt].
  - rewrite Hrdx, Hrdp.
    replace (ph ^ 4) with (ph ^ 2 * ph ^ 2) by ring.
    split.
    + intros Hle. assert (x <= ph) by nra.
      assert (x ^ 2 <= ph ^ 2) by nra.
      assert (x ^ 2 * (v + q) <= ph ^ 2 * (v + q)) by nra.
      unfold q in *. nra.
    + intros Hle.
      assert (v * q <= ph ^ 2 * (v + q)) by (unfold q in *; nra).
      assert (x ^ 2 <= ph ^ 2) by nra.
      assert (x <= ph) by nra.
      nra.
Qed.


End DrawAndDeviation.

Section DeviationExamples.
Import GlickoMath Examples.
Local Open Scope R_scope.




End DeviationExamples.

(** ** processMatch *)

Section ProcessMatchFacts.
Import Types GlickoMath RankingSystem Examples.
Local Open Scope R_scope.

Lemma score2_complement (result : Score) :
  scoreValue (score2 result) = 1 - scoreValue result.
Proof. destruct result; simpl; lra. Qed.

Lemma toGlickoPlayer_withStats (item : RankedItem R) (st : GlickoPlayer) :
  toGlickoPlayer (withStats item st) = st.
Proof. now destruct st. Qed.

(** C9. [processMatch] returns when its two updates return.  Both
    returned items keep [id], [name] and [image]; each [matches] count
    grows by exactly one; the new state of item 1 is the update of its
    old state against the old state of item 2 with the result, and the
    new state of item 2 is the update of its old state against the old
    state of item 1 with the complementary score. *)
Theorem processMatch_frame (fuel : nat)
  (item1 item2 : RankedItem R) (result : Score) :
  scoreValue (score2 result) = 1 - scoreValue result /\
  (forall s1 s2,
     calculateNewStats fuel (toGlickoPlayer item1) (toGlickoPlayer item2)
       result = Some s1 ->
     calculateNewStats fuel (toGlickoPlayer item2) (toGlickoPlayer item1)
       (score2 result) = Some s2 ->
     exists new1 new2,
       processMatch fuel item1 item2 result = Some (new1, new2)) /\
  (forall new1 new2,
     processMatch fuel item1 item2 result = Some (new1, new2) ->
     id new1 = id item1 /\ name new1 = name item1 /\
     image new1 = image item1 /\
     id new2 = id item2 /\ name new2 = name item2 /\
     image new2 = image item2 /\
     matches new1 = (matches item1 + 1)%Z /\
     matches new2 = (matches item2 + 1)%Z /\
     calculateNewStats fuel (toGlickoPlayer item1) (toGlickoPlayer item2)
       result = Some (toGlickoPlayer new1) /\
     calculateNewStats fuel (toGlickoPlayer item2) (toGlickoPlayer item1)
       (score2 result) = Some (toGlickoPlayer new2)).
Proof.
  split; [apply score2_complement|]. split.
  - intros s1 s2 H1 H2. unfold processMatch. cbv zeta.
    rewrite H1, H2. eauto.
  - intros new1 new2. unfold processMatch. cbv zeta.
    destruct (calculateNewStats fuel (toGlickoPlayer item1)
                (toGlickoPlayer item2) result) as [s1|]; [|discriminate].
    destruct (calculateNewStats fuel (toGlickoPlayer item2)
                (toGlickoPlayer item1) (score2 result)) as [s2|];
      [|discriminate].
    intros [= <- <-]. rewrite !toGlickoPlayer_withStats.
    repeat split; reflexivity.
Qed.

Lemma processMatch_frame_witness :
  exists new1 new2,
    processMatch 3 (itemR "a" fresh 0) (itemR "b" fresh 5) Win
    = Some (new1, new2) /\
    id new1 = "a"%string /\ id new2 = "b"%string /\
    matches new1 = 1%Z /\ matches new2 = 6%Z.
Proof.
  destruct (calculateNewStats_returns_equal_rating fresh fresh Win eq_refl
              (proj1 fresh_small) (proj2 fresh_small)) as [A [_ HA]].
  destruct (calculateNewStats_returns_equal_rating fresh fresh Loss eq_refl
              (proj1 fresh_small) (proj2 fresh_small)) as [A' [_ HA']].
  destruct (proj1 (proj2 (processMatch_frame 3 (itemR "a" fresh 0)
                            (itemR "b" fresh 5) Win)) _ _ HA HA')
    as [new1 [new2 Hp]].
  exists new1, new2. split; [exact Hp|].
  destruct (proj2 (proj2 (processMatch_frame 3 (itemR "a" fresh 0)
                            (itemR "b" fresh 5) Win)) _ _ Hp)
    as [H1 [_ [_ [H2 [_ [_ [H3 [H4 _]]]]]]]].
  repeat split; assumption.
Defined.

(** The concrete example of the specification through [processMatch]:
    two new items, the first wins. *)
Example processMatch_two_fresh_items :
  exists new1 new2,
    processMatch 3 (itemR "a" fresh 0) (itemR "b" fresh 0) Win
    = Some (new1, new2) /\
    1500 < Types.rating new1 /\ Types.rating new2 < 1500 /\
    Types.rating new1 - 1500 = 1500 - Types.rating new2 /\
    matches new1 = 1%Z /\ matches new2 = 1%Z.
Proof.
  destruct (calculateNewStats_returns_equal_rating fresh fresh Win eq_refl
              (proj1 fresh_small) (proj2 fresh_small)) as [A [_ HA]].
  destruct (calculateNewStats_returns_equal_rating fresh fresh Loss eq_refl
              (proj1 fresh_small) (proj2 fresh_small)) as [A' [_ HA']].
  exists (withStats (itemR "a" fresh 0) (newStatsOf fresh fresh Win A)),
         (withStats (itemR "b" fresh 0) (newStatsOf fresh fresh Loss A')).
  split.
  { unfold processMatch. cbv zeta.
    change (toGlickoPlayer (itemR "a" fresh 0)) with fresh.
    change (toGlickoPlayer (itemR "b" fresh 0)) with fresh.
    change (score2 Win) with Loss. now rewrite HA, HA'. }
  apply calculateNewStats_Some_finalAOf in HA, HA'.
  destruct HA as [A0 [HA0 E0]]. destruct HA' as [A1 [HA1 E1]].
  rewrite finalAOf_win_loss in HA0.
  assert (A1 = A0) by congruence. subst A1.
  cbn [Types.rating matches withStats]. rewrite E0, E1.
  destruct (rating_step_equal fresh fresh Win A0 eq_refl) as [k [Hk [Ek ->]]].
  destruct (rating_step_equal fresh fresh Loss A0 eq_refl)
    as [k' [_ [Ek' ->]]].
  assert (k = k') by (rewrite Ek, Ek'; reflexivity). subst k'.
  change (GlickoMath.rating fresh) with 1500. simpl scoreValue.
  repeat split; try lra.
Qed.

End ProcessMatchFacts.

(** * Further properties of the code *)

(** ** The scale conversions and the helpers [g] and [E] *)

Section ScaleAndHelpers.
Import GlickoMath.
Local Open Scope R_scope.

(** Converting a state to the Glicko-2 scale and back gives the state,
    and converting Glicko-2 values to the standard scale and back gives
    the values. *)
Theorem scale_round_trip (player : GlickoPlayer) (m ph s : R) :
  toStandardScale (mu (toGlickoScale player)) (phi (toGlickoScale player))
    (sigma (toGlickoScale player)) = player /\
  toGlickoScale (toStandardScale m ph s) = mkGlickoScaled m ph s.
Proof.
  pose proof GLICKO_SCALE_pos as HS.
  split.
  - destruct player as [r d v]. unfold toStandardScale, toGlickoScale.
    cbn [mu phi sigma rating rd vol]. f_equal; field; lra.
  - unfold toStandardScale, toGlickoScale.
    cbn [mu phi sigma rating rd vol]. f_equal; field; lra.
Qed.

Lemma g_square (x : R) : g x ^ 2 = 1 / (1 + 3 * x ^ 2 / PI ^ 2).
Proof.
  unfold g.
  assert (Hpi : 0 < PI ^ 2) by (pose proof PI_RGT_0; nra).
  assert (Hq : 0 <= 3 * x ^ 2 / PI ^ 2).
  { apply Rmult_le_pos; [nra | left; now apply Rinv_0_lt_compat]. }
  assert (Hs : 0 < sqrt (1 + 3 * x ^ 2 / PI ^ 2)) by (apply sqrt_lt_R0; lra).
  replace ((1 / sqrt (1 + 3 * x ^ 2 / PI ^ 2)) ^ 2)
    with (1 / sqrt (1 + 3 * x ^ 2 / PI ^ 2) ^ 2) by (field; lra).
  rewrite pow2_sqrt by lra. reflexivity.
Qed.


Lemma E_increasing (a b mj pj : R) : a < b -> E a mj pj < E b mj pj.
Proof.
  intros Hab. unfold E.
  pose proof (g_bounds pj) as HG.
  pose proof (exp_pos (- g pj * (a - mj))) as Ha.
  pose proof (exp_pos (- g pj * (b - mj))) as Hb.
  assert (Hlt : exp (- g pj * (b - mj)) < exp (- g pj * (a - mj))).
  { apply exp_increasing. nra. }
  unfold Rdiv. rewrite !Rmult_1_l.
  apply Rinv_lt_contravar; [|lra].
  apply Rmult_lt_0_compat; lra.
Qed.

Lemma E_below_half (m mj pj : R) : E m mj pj < 1 / 2 <-> m < mj.
Proof.
  rewrite <- (E_equal_mu mj pj). split.
  - intros Hlt. destruct (Rlt_dec m mj) as [H|H]; [exact H|].
    destruct (Req_dec m mj) as [->|Hne]; [lra|].
    assert (H0 : mj < m) by lra.
    pose proof (E_increasing mj m mj pj H0). lra.
  - apply E_increasing.
Qed.

Lemma E_above_half (m mj pj : R) : 1 / 2 < E m mj pj <-> mj < m.
Proof.
  rewrite <- (E_equal_mu mj pj). split.
  - intros Hlt. destruct (Rlt_dec mj m) as [H|H]; [exact H|].
    destruct (Req_dec m mj) as [->|Hne]; [lra|].
    assert (H0 : m < mj) by lra.
    pose proof (E_increasing m mj mj pj H0). lra.
  - apply E_increasing.
Qed.


End ScaleAndHelpers.

(** ** The second loop stays inside its first bracket *)

Section BracketInvariant.
Import GlickoMath.
Local Open Scope R_scope.



Lemma exp_half_ln_square (x : R) : x <> 0 -> exp (ln (x ^ 2) / 2) = Rabs x.
Proof.
  intros Hx.
  assert (Hx2 : 0 < x ^ 2).
  { assert (0 <= x ^ 2) by apply pow2_ge_0.
    assert (x ^ 2 <> 0) by (apply pow_nonzero; exact Hx). lra. }
  assert (Hsq : exp (ln (x ^ 2) / 2) ^ 2 = Rabs x ^ 2).
  { rewrite pow2_abs.
    replace (exp (ln (x ^ 2) / 2) ^ 2)
      with (exp (ln (x ^ 2) / 2) * exp (ln (x ^ 2) / 2)) by ring.
    rewrite <- exp_plus.
    replace (ln (x ^ 2) / 2 + ln (x ^ 2) / 2) with (ln (x ^ 2)) by lra.
    now apply exp_ln. }
  pose proof (exp_pos (ln (x ^ 2) / 2)) as He.
  pose proof (Rabs_pos x) as Ha.
  nra.
Qed.


Lemma exp_le (x y : R) : x <= y -> exp x <= exp y.
Proof.
  intros [H|H]; [left; now apply exp_increasing | rewrite H; lra].
Qed.


End BracketInvariant.

(** ** The rating update on any two states *)

Section UpdateExtras.
Import GlickoMath Examples.
Local Open Scope R_scope.

Lemma rating_below_iff_mu (p o : GlickoPlayer) :
  mu (toGlickoScale p) < mu (toGlickoScale o) <-> rating p < rating o.
Proof.
  pose proof GLICKO_SCALE_pos as HS. unfold toGlickoScale. cbn [mu].
  split; intros H.
  - apply Rmult_lt_reg_r with (/ GLICKO_SCALE);
      [now apply Rinv_0_lt_compat|]. unfold Rdiv in H. lra.
  - unfold Rdiv. apply Rmult_lt_compat_r;
      [now apply Rinv_0_lt_compat | lra].
Qed.






Lemma Some_eq {T : Type} (x y : T) : Some x = Some y -> x = y.
Proof. congruence. Qed.




End UpdateExtras.

(** ** Expected results *)

Section ExpectedResults.
Import GlickoMath Examples Conditions.
Local Open Scope R_scope.

Lemma Rabs_bounds (x b : R) : Rabs x <= b <-> - b <= x <= b.
Proof.
  unfold Rabs. destruct (Rcase_abs x); split; intros; lra.
Qed.

(** [delta^2] against [v]. *)
Lemma deltaOf_square (p o : GlickoPlayer) (s : Score) :
  deltaOf p o s ^ 2
  * (E (mu (toGlickoScale p)) (mu (toGlickoScale o)) (phi (toGlickoScale o))
     * (1 - E (mu (toGlickoScale p)) (mu (toGlickoScale o))
              (phi (toGlickoScale o))))
  = varianceOf p o
    * (scoreValue s
       - E (mu (toGlickoScale p)) (mu (toGlickoScale o))
           (phi (toGlickoScale o))) ^ 2.
Proof.
  unfold deltaOf, varianceOf. cbv zeta.
  pose proof (g_bounds (phi (toGlickoScale o))) as HG.
  pose proof (E_bounds (mu (toGlickoScale p)) (mu (toGlickoScale o))
                (phi (toGlickoScale o))) as HE.
  set (G := g (phi (toGlickoScale o))) in *.
  set (Ev := E _ _ _) in *.
  field. repeat split; lra.
Qed.

Lemma deltaOf_le_variance (p o : GlickoPlayer) (s : Score) :
  (scoreValue s
   - E (mu (toGlickoScale p)) (mu (toGlickoScale o)) (phi (toGlickoScale o)))
  ^ 2
  <= E (mu (toGlickoScale p)) (mu (toGlickoScale o)) (phi (toGlickoScale o))
     * (1 - E (mu (toGlickoScale p)) (mu (toGlickoScale o))
              (phi (toGlickoScale o))) ->
  deltaOf p o s ^ 2 <= varianceOf p o.
Proof.
  intros Hs.
  pose proof (deltaOf_square p o s) as Heq.
  pose proof (varianceOf_ge_4 p o) as Hv.
  pose proof (E_bounds (mu (toGlickoScale p)) (mu (toGlickoScale o))
                (phi (toGlickoScale o))) as HE.
  set (Ev := E _ _ _) in *.
  set (d2 := deltaOf p o s ^ 2) in *.
  set (v := varianceOf p o) in *.
  assert (Hq : 0 < Ev * (1 - Ev)) by nra.
  assert (H1 : d2 * (Ev * (1 - Ev)) <= v * (Ev * (1 - Ev))) by nra.
  nra.
Qed.

(** The expected score between two ratings at most 80 points apart is
    between one third and two thirds. *)
Lemma E_close_ratings (p o : GlickoPlayer) :
  Rabs (rating p - rating o) <= 80 ->
  1 / 3 <= E (mu (toGlickoScale p)) (mu (toGlickoScale o))
             (phi (toGlickoScale o)) <= 2 / 3.
Proof.
  intros Hclose.
  pose proof (g_bounds (phi (toGlickoScale o))) as HG.
  assert (Hmu : Rabs (mu (toGlickoScale p) - mu (toGlickoScale o)) <= 1 / 2).
  { unfold toGlickoScale. cbn [mu]. unfold GLICKO_SCALE.
    replace ((rating p - 1500) / 173.7178 - (rating o - 1500) / 173.7178)
      with ((rating p - rating o) / 173.7178) by lra.
    apply Rabs_bounds. apply Rabs_bounds in Hclose. lra. }
  apply Rabs_bounds in Hmu.
  unfold E.
  set (x := - g (phi (toGlickoScale o))
            * (mu (toGlickoScale p) - mu (toGlickoScale o))).
  assert (Hx : - (1 / 2) <= x <= 1 / 2) by (unfold x; nra).
  destruct (exp_neg_bounds (1 / 2)) as [Hp [Hlo _]]; [lra|].
  assert (Hinv : exp (- (1 / 2)) * exp (1 / 2) = 1).
  { rewrite <- exp_plus. replace (- (1 / 2) + 1 / 2) with 0 by lra.
    apply exp_0. }
  assert (Hup : exp (1 / 2) <= 2) by nra.
  assert (Ht1 : exp x <= 2).
  { apply Rle_trans with (exp (1 / 2)); [apply exp_le; lra | exact Hup]. }
  assert (Ht0 : 1 / 2 <= exp x).
  { apply Rle_trans with (exp (- (1 / 2))); [lra | apply exp_le; lra]. }
  split.
  - apply Rmult_le_reg_r with (1 + exp x); [lra|].
    replace (1 / (1 + exp x) * (1 + exp x)) with 1 by (field; lra). lra.
  - apply Rmult_le_reg_r with (1 + exp x); [lra|].
    replace (1 / (1 + exp x) * (1 + exp x)) with 1 by (field; lra). lra.
Qed.

Lemma expectedResult_delta (p o : GlickoPlayer) (s : Score) :
  expectedResult p o s -> deltaOf p o s ^ 2 <= varianceOf p o.
Proof.
  intros Hexp. apply deltaOf_le_variance.
  pose proof (E_bounds (mu (toGlickoScale p)) (mu (toGlickoScale o))
                (phi (toGlickoScale o))) as HE.
  pose proof (E_below_half (mu (toGlickoScale p)) (mu (toGlickoScale o))
                (phi (toGlickoScale o))) as Hlo.
  pose proof (E_above_half (mu (toGlickoScale p)) (mu (toGlickoScale o))
                (phi (toGlickoScale o))) as Hhi.
  rewrite rating_below_iff_mu in Hlo, Hhi.
  destruct s; simpl in Hexp; simpl scoreValue.
  - (* Loss *)
    assert (E (mu (toGlickoScale p)) (mu (toGlickoScale o))
              (phi (toGlickoScale o)) <= 1 / 2).
    { destruct (Rle_dec (E (mu (toGlickoScale p)) (mu (toGlickoScale o))
                           (phi (toGlickoScale o))) (1 / 2)) as [H|H];
        [exact H|].
      assert (H' : rating o < rating p) by (apply Hhi; lra). lra. }
    set (Ev := E _ _ _) in *. nra.
  - (* Draw *)
    pose proof (E_close_ratings p o Hexp) as Hc.
    set (Ev := E _ _ _) in *. nra.
  - (* Win *)
    assert (1 / 2 <= E (mu (toGlickoScale p)) (mu (toGlickoScale o))
                       (phi (toGlickoScale o))).
    { destruct (Rle_dec (1 / 2)
                  (E (mu (toGlickoScale p)) (mu (toGlickoScale o))
                     (phi (toGlickoScale o)))) as [H|H]; [exact H|].
      assert (H' : rating p < rating o) by (apply Hlo; lra). lra. }
    set (Ev := E _ _ _) in *. nra.
Qed.

Lemma calculateNewStats_returns_expected
  (p o : GlickoPlayer) (s : Score) :
  expectedResult p o s -> vol p <> 0 -> vol p ^ 2 <= 4 / 1000 ->
  exists A,
    ln (vol p ^ 2) - 1 / 8000 <= A <= ln (vol p ^ 2) /\
    calculateNewStats 3 p o s = Some (newStatsOf p o s A).
Proof.
  intros Hexp Hvol Hsmall.
  pose proof (varianceOf_ge_4 p o) as Hv.
  pose proof (pow2_ge_0 (phi (toGlickoScale p))) as Hp.
  pose proof (expectedResult_delta p o s Hexp) as Hd.
  apply calculateNewStats_returns; [exact Hvol | lra | lra].
Qed.

(** When the higher-rated item wins, the lower-rated one loses, or two
    items at most 80 points apart draw, and the volatility of the
    updated item is at most [sqrt 0.004] in absolute value, the update
    returns after at most three evaluations of each loop condition, and
    the returned volatility is at most the old one and more than 0.9999
    times it. *)
Theorem expected_result_returns (p o : GlickoPlayer) (s : Score) :
  expectedResult p o s -> vol p <> 0 -> vol p ^ 2 <= 4 / 1000 ->
  exists r,
    (forall fuel, (3 <= fuel)%nat ->
                  calculateNewStats fuel p o s = Some r) /\
    9999 / 10000 * Rabs (vol p) <= vol r <= Rabs (vol p).
Proof.
  intros Hexp Hvol Hsmall.
  destruct (calculateNewStats_returns_expected p o s Hexp Hvol Hsmall)
    as [A [[HAlo HAhi] HA]].
  exists (newStatsOf p o s A). split.
  - intros fuel Hf. now apply (calculateNewStats_fuel 3 fuel).
  - assert (Hvr : vol (newStatsOf p o s A) = exp (A / 2)) by reflexivity.
    rewrite Hvr, <- (exp_half_ln_square (vol p) Hvol).
    split.
    + apply Rle_trans
        with (exp (- (1 / 16000)) * exp (ln (vol p ^ 2) / 2)).
      * pose proof (exp_ineq1_le (- (1 / 16000))).
        pose proof (exp_pos (ln (vol p ^ 2) / 2)). nra.
      * rewrite <- exp_plus. apply exp_le. lra.
    + apply exp_le. lra.
Qed.

Lemma expected_result_returns_witness :
  exists r,
    (forall fuel, (3 <= fuel)%nat ->
                  calculateNewStats fuel fresh (player 1450 200 0.06) Win
                  = Some r) /\
    9999 / 10000 * Rabs (vol fresh) <= vol r <= Rabs (vol fresh).
Proof.
  apply (expected_result_returns fresh (player 1450 200 0.06) Win).
  - simpl. lra.
  - exact (proj1 fresh_small).
  - exact (proj2 fresh_small).
Defined.

End ExpectedResults.

Section DeviationInRange.
Import GlickoMath Examples.
Local Open Scope R_scope.

Lemma PI_square_gt_9 : 9 < PI ^ 2.
Proof. pose proof PI2_3_2. nra. Qed.

(** Between equal ratings the estimated variance is [4 + 12 phi_o^2 / pi^2]. *)
Lemma varianceOf_equal_rating_bound (p o : GlickoPlayer) :
  rating p = rating o ->
  varianceOf p o <= 4 + 4 / 3 * phi (toGlickoScale o) ^ 2.
Proof.
  intros Heq. rewrite (varianceOf_equal_rating p o Heq), g_square.
  pose proof PI_square_gt_9 as Hpi.
  pose proof PI_RGT_0 as Hpi0.
  pose proof (pow2_ge_0 (phi (toGlickoScale o))) as Hp.
  set (x := phi (toGlickoScale o) ^ 2) in *.
  assert (Hq : 3 * x / PI ^ 2 <= x / 3).
  { apply Rmult_le_reg_r with (PI ^ 2); [lra|].
    replace (3 * x / PI ^ 2 * PI ^ 2) with (3 * x) by (field; lra). nra. }
  assert (Hq0 : 0 <= 3 * x / PI ^ 2).
  { apply Rmult_le_pos; [lra | left; apply Rinv_0_lt_compat; lra]. }
  replace (4 / (1 / (1 + 3 * x / PI ^ 2))) with (4 * (1 + 3 * x / PI ^ 2))
    by (field; split; lra).
  lra.
Qed.

(** Two items of equal rating, the updated one with a deviation of at
    least 80 and a volatility of at most 0.06, the other with a
    deviation of at most 350: the update returns, and neither the
    deviation nor the volatility grows. *)
Theorem deviation_shrinks_in_range (p o : GlickoPlayer) (s : Score) :
  rating p = rating o ->
  80 <= rd p -> 0 < rd o <= 350 -> 0 < vol p <= 0.06 ->
  exists r,
    calculateNewStats 3 p o s = Some r /\
    rd r <= rd p /\ vol r <= vol p.
Proof.
  intros Heq Hrd Hrdo Hvol.
  assert (Hz : vol p <> 0) by lra.
  assert (Hs : vol p ^ 2 <= 4 / 1000) by nra.
  destruct (calculateNewStats_returns_equal_rating p o s Heq Hz Hs)
    as [A [[_ HA] Hret]].
  exists (newStatsOf p o s A). split; [exact Hret|].
  assert (Hexp : exp A <= vol p ^ 2).
  { rewrite <- (exp_ln (vol p ^ 2)) by nra. now apply exp_le. }
  pose proof (exp_pos A) as HeA.
  split.
  - apply (rd_newStatsOf_compare p o s A); [lra|].
    rewrite vol_newStatsOf_square.
    pose proof (varianceOf_equal_rating_bound p o Heq) as Hv.
    pose proof (varianceOf_ge_4 p o) as Hv4.
    assert (Hpo : phi (toGlickoScale o) ^ 2 <= 406 / 100).
    { unfold toGlickoScale. cbn [phi]. unfold GLICKO_SCALE.
      set (x := rd o / 173.7178).
      assert (Hx : rd o = 173.7178 * x) by (unfold x; lra).
      assert (0 < x) by (unfold x; apply Rdiv_lt_0_compat; lra).
      assert (x <= 2015 / 1000) by lra.
      nra. }
    assert (Hpp : 46 / 100 <= phi (toGlickoScale p)).
    { unfold toGlickoScale. cbn [phi]. unfold GLICKO_SCALE.
      set (x := rd p / 173.7178).
      assert (Hx : rd p = 173.7178 * x) by (unfold x; lra).
      lra. }
    set (ph := phi (toGlickoScale p)) in *.
    set (v := varianceOf p o) in *.
    assert (Hph2 : 2116 / 10000 <= ph ^ 2) by nra.
    assert (Hph4 : 2116 / 10000 * (2116 / 10000) <= ph ^ 4).
    { replace (ph ^ 4) with (ph ^ 2 * ph ^ 2) by ring. nra. }
    assert (Hvb : v - ph ^ 2 <= 942 / 100) by lra.
    assert (Hvb0 : 0 <= v - ph ^ 2 \/ v - ph ^ 2 < 0) by lra.
    destruct Hvb0 as [Hpos|Hneg]; [|nra].
    assert (Hprod : exp A * (v - ph ^ 2) <= 36 / 10000 * (942 / 100)).
    { apply Rmult_le_compat; try lra. nra. }
    lra.
  - assert (Hvr : vol (newStatsOf p o s A) = exp (A / 2)) by reflexivity.
    rewrite Hvr.
    rewrite <- (Rabs_pos_eq (vol p)) by lra.
    rewrite <- (exp_half_ln_square (vol p) Hz).
    apply exp_le. lra.
Qed.

Lemma deviation_shrinks_in_range_witness :
  exists r,
    calculateNewStats 3 fresh fresh Draw = Some r /\
    rd r <= rd fresh /\ vol r <= vol fresh.
Proof.
  apply (deviation_shrinks_in_range fresh fresh Draw).
  - reflexivity.
  - simpl. lra.
  - simpl. lra.
  - simpl. lra.
Defined.

End DeviationInRange.

(** ** processMatch and updateRatings *)

Section RankingExtras.
Import Types GlickoMath RankingSystem UpdateRatings Examples.
Local Open Scope R_scope.

Lemma score2_involutive (result : Score) : score2 (score2 result) = result.
Proof. now destruct result. Qed.

(** The outcome of a comparison does not depend on which of the two
    items is passed first: exchanging the items and passing the
    complementary result exchanges the two returned items. *)
Theorem processMatch_swap (fuel : nat)
  (item1 item2 : RankedItem R) (result : Score) :
  processMatch fuel item2 item1 (score2 result)
  = match processMatch fuel item1 item2 result with
    | Some (new1, new2) => Some (new2, new1)
    | None => None
    end.
Proof.
  unfold processMatch. cbv zeta. rewrite score2_involutive.
  destruct (calculateNewStats fuel (toGlickoPlayer item1)
              (toGlickoPlayer item2) result);
    destruct (calculateNewStats fuel (toGlickoPlayer item2)
                (toGlickoPlayer item1) (score2 result));
    reflexivity.
Qed.



End RankingExtras.

(** ** The matchmaker on any pool *)

Section MatchmakingExtras.
Import Types Matchmaking.
Context {num : Type} {N : JsNum num}.

Local Abbreviation Item := (RankedItem num).

Lemma getNextMatchup_Pair (items : list Item) (u1 u2 : Q) (A : Item)
  (ob : option Item) :
  getNextMatchup items u1 u2 = Pair A ob ->
  (2 <= List.length items)%nat /\
  JsArray.get (sortedByNeed items)
    (JsArray.randomIndex u1 (Nat.min 3 (List.length (sortedByNeed items))))
  = Some A /\
  ob = JsArray.get (closeOpponents items A)
         (JsArray.randomIndex u2 (List.length (closeOpponents items A))).
Proof.
  unfold getNextMatchup.
  destruct (Nat.ltb_spec (List.length items) 2) as [|Hlen]; [discriminate|].
  cbv zeta.
  destruct (JsArray.get (sortedByNeed items) _) as [A'|] eqn:HA;
    [|discriminate].
  intros [= -> <-]. split; [exact Hlen|]. split; reflexivity.
Qed.

Lemma getNextMatchup_Pair_In (items : list Item) (u1 u2 : Q) (A : Item)
  (ob : option Item) :
  getNextMatchup items u1 u2 = Pair A ob ->
  In A items /\ forall B, ob = Some B -> In B items /\ id B <> id A.
Proof.
  intros H. apply getNextMatchup_Pair in H.
  destruct H as [Hlen [HA Hob]]. split.
  - apply (sort_In compareNeed). eapply get_In. exact HA.
  - intros B HB. rewrite HB in Hob. symmetry in Hob.
    apply get_In, closeOpponents_In in Hob. destruct Hob as [Hp _].
    now apply potentialOpponents_In in Hp.
Qed.

Lemma getNextMatchup_no_TypeError (items : list Item) (u1 u2 : Q) :
  isRandom u1 -> getNextMatchup items u1 u2 <> TypeError.
Proof.
  intros Hu1. unfold getNextMatchup.
  destruct (Nat.ltb_spec (List.length items) 2) as [|Hlen]; [discriminate|].
  cbv zeta.
  destruct (candidateA_defined items u1 Hlen Hu1) as [A [HA _]].
  rewrite HA. discriminate.
Qed.

(** On any pool and for any two numbers in place of the random draws, a
    returned pair consists of items of the pool, and when its second
    item is defined the two identifiers differ; with a first draw in
    [0, 1) the call does not throw. *)
Theorem getNextMatchup_members (items : list Item) (u1 u2 : Q) :
  (isRandom u1 -> getNextMatchup items u1 u2 <> TypeError) /\
  (forall A ob,
     getNextMatchup items u1 u2 = Pair A ob ->
     (2 <= List.length items)%nat /\ In A items /\
     forall B, ob = Some B -> In B items /\ id B <> id A).
Proof.
  split.
  - apply getNextMatchup_no_TypeError.
  - intros A ob H. split.
    + now apply getNextMatchup_Pair in H.
    + now apply getNextMatchup_Pair_In in H.
Qed.

Lemma two_items_pair (x y : Item) (u1 u2 : Q) :
  id x <> id y -> isRandom u1 -> isRandom u2 ->
  getNextMatchup [x; y] u1 u2 = Pair x (Some y) \/
  getNextMatchup [x; y] u1 u2 = Pair y (Some x).
Proof.
  intros Hxy Hu1 [H0 H1].
  assert (Hlen : (2 <= List.length [x; y])%nat) by (simpl; lia).
  assert (Hnd : NoDup (map id [x; y])).
  { simpl. constructor; [simpl; intuition congruence|].
    constructor; [simpl; tauto | constructor]. }
  destruct (candidateA_defined [x; y] u1 Hlen Hu1) as [A [HA [_ HAin]]].
  destruct (get_randomIndex (closeOpponents [x; y] A) u2 H0 H1) as [B HB].
  { rewrite closeOpponents_nil. now apply distinct_ids_other. }
  rewrite (getNextMatchup_unfold [x; y] u1 u2 A Hlen HA), HB.
  apply get_In, closeOpponents_In in HB. destruct HB as [HBp _].
  apply potentialOpponents_In in HBp. destruct HBp as [HBin HBid].
  simpl in HAin, HBin.
  destruct HAin as [<-|[<-|[]]]; destruct HBin as [<-|[<-|[]]];
    try congruence; [left|right]; reflexivity.
Qed.

(** A pool of exactly two items with different identifiers: the pair is
    always the two items, in one order or the other. *)
Theorem getNextMatchup_two_items (x y : Item) (u1 u2 : Q) :
  id x <> id y -> isRandom u1 -> isRandom u2 ->
  getNextMatchup [x; y] u1 u2 = Pair x (Some y) \/
  getNextMatchup [x; y] u1 u2 = Pair y (Some x).
Proof. apply two_items_pair. Qed.

End MatchmakingExtras.

Section RankingOrderExtras.
Import Types Matchmaking.
Context {num : Type} {N : JsNum num} {L : JsNumLaws num}.

Local Abbreviation Item := (RankedItem num).

Lemma randomIndex_zero (u : Q) (n : nat) :
  isRandom u -> (3 * u < 1)%Q -> (n <= 3)%nat -> JsArray.randomIndex u n = 0%Z.
Proof.
  intros [H0 H1] H3 Hn. unfold JsArray.randomIndex.
  assert (Hq : (0 <= inject_Z (Z.of_nat n))%Q).
  { change 0%Q with (inject_Z 0). rewrite <- Zle_Qle. lia. }
  assert (Hq3 : (inject_Z (Z.of_nat n) <= 3)%Q).
  { change 3%Q with (inject_Z 3). rewrite <- Zle_Qle. lia. }
  assert (Hlo : (0 <= u * inject_Z (Z.of_nat n))%Q)
    by now apply Qmult_le_0_compat.
  assert (Hhi : (u * inject_Z (Z.of_nat n) < 1)%Q).
  { apply Qle_lt_trans with (3 * u)%Q; [|exact H3].
    rewrite (Qmult_comm u). now apply Qmult_le_compat_r. }
  pose proof (Qfloor_le (u * inject_Z (Z.of_nat n))) as Hf.
  pose proof (Qlt_floor (u * inject_Z (Z.of_nat n))) as Hc.
  assert (Hf1 : (Qfloor (u * inject_Z (Z.of_nat n)) < 1)%Z).
  { rewrite Zlt_Qlt. eapply Qle_lt_trans; eassumption. }
  assert (Hf0 : (0 <= Qfloor (u * inject_Z (Z.of_nat n)))%Z).
  { assert (Hz : (0 < Qfloor (u * inject_Z (Z.of_nat n)) + 1)%Z).
    { rewrite Zlt_Qlt. eapply Qle_lt_trans; [exact Hlo | exact Hc]. }
    lia. }
  lia.
Qed.

(** An item with strictly fewer matches than every other item of the
    pool is the first of the ranking by need, and it is competitor A
    whenever the first draw is below one third. *)
Theorem least_observed_first (l1 l2 : list Item) (x : Item) (u1 u2 : Q) :
  (forall y, In y (l1 ++ l2) -> (matches x < matches y)%Z) ->
  (exists rest, sortedByNeed (l1 ++ x :: l2) = x :: rest) /\
  ((2 <= List.length (l1 ++ x :: l2))%nat ->
   isRandom u1 -> (3 * u1 < 1)%Q ->
   exists ob, getNextMatchup (l1 ++ x :: l2) u1 u2 = Pair x ob).
Proof.
  intros Hmin.
  assert (Hhead : exists rest, sortedByNeed (l1 ++ x :: l2) = x :: rest).
  { pose proof (sort_Permutation compareNeed (l1 ++ x :: l2)) as Hperm.
    pose proof (sort_StronglySorted compareNeed compareNeed_total
                  compareNeed_trans (l1 ++ x :: l2)) as Hsorted.
    fold (sortedByNeed (l1 ++ x :: l2)) in Hperm, Hsorted.
    destruct (sortedByNeed (l1 ++ x :: l2)) as [|h t] eqn:Hs.
    - apply Permutation_nil in Hperm. destruct l1; discriminate.
    - assert (Hx : In x (h :: t)).
      { apply (Permutation_in _ (Permutation_sym Hperm)).
        apply in_or_app. right. now left. }
      assert (Hh : In h (l1 ++ x :: l2)).
      { apply (Permutation_in _ Hperm). now left. }
      destruct Hx as [->|Hxt]; [now exists t|].
      inversion Hsorted as [|? ? _ Hall]; subst.
      rewrite Forall_forall in Hall. specialize (Hall x Hxt).
      apply compareNeed_rankedBefore in Hall.
      apply in_app_or in Hh. destruct Hh as [Hh|[->|Hh]].
      + assert (Hlt : (matches x < matches h)%Z)
          by (apply Hmin, in_or_app; now left).
        unfold rankedBefore in Hall. lia.
      + now exists t.
      + assert (Hlt : (matches x < matches h)%Z)
          by (apply Hmin, in_or_app; now right).
        unfold rankedBefore in Hall. lia. }
  split; [exact Hhead|].
  intros Hlen Hu1 H3. destruct Hhead as [rest Hrest].
  assert (HA : JsArray.get (sortedByNeed (l1 ++ x :: l2))
                 (JsArray.randomIndex u1
                    (Nat.min 3 (List.length (sortedByNeed (l1 ++ x :: l2)))))
               = Some x).
  { rewrite randomIndex_zero by (try assumption; lia).
    rewrite Hrest. reflexivity. }
  eexists. apply (getNextMatchup_unfold _ u1 u2 x Hlen HA).
Qed.

End RankingOrderExtras.

(** ** App.tsx: the leaderboard and the handlers *)

Section HostLists.
Import Types Matchmaking App.
Context {num : Type} {N : JsNum num}.

Local Abbreviation Item := (RankedItem num).
Local Abbreviation PairState := (@App.PairState num).

(** The guard of [tryGetNextPair] repeats the one of
    [getNextMatchup]. *)
Lemma tryGetNextPair_getNextMatchup (items : list Item) (u1 u2 : Q) :
  tryGetNextPair items u1 u2 = getNextMatchup items u1 u2.
Proof.
  unfold tryGetNextPair, getNextMatchup.
  now destruct (List.length items <? 2)%nat.
Qed.

Lemma replaceItems_ids (items : list Item) (item1 item2 : Item) :
  map id (replaceItems items item1 item2) = map id items.
Proof.
  unfold replaceItems. rewrite map_map. apply map_ext. intros x.
  destruct (String.eqb_spec (id x) (id item1)) as [H1|H1]; [now rewrite H1|].
  destruct (String.eqb_spec (id x) (id item2)) as [H2|H2]; [now rewrite H2|].
  reflexivity.
Qed.

Lemma replaceItems_In (items : list Item) (item1 item2 x : Item) :
  In x (replaceItems items item1 item2) ->
  x = item1 \/ x = item2 \/
  (In x items /\ id x <> id item1 /\ id x <> id item2).
Proof.
  unfold replaceItems. rewrite in_map_iff. intros [y [Hy Hin]].
  destruct (String.eqb_spec (id y) (id item1)) as [H1|H1];
    [left; now symmetry|].
  destruct (String.eqb_spec (id y) (id item2)) as [H2|H2];
    [right; left; now symmetry|].
  subst y. right. right. repeat split; assumption.
Qed.

Lemma replaceItems_other (items : list Item) (item1 item2 x : Item) :
  In x items -> id x <> id item1 -> id x <> id item2 ->
  In x (replaceItems items item1 item2).
Proof.
  intros Hin H1 H2. unfold replaceItems. apply in_map_iff. exists x.
  split; [|exact Hin].
  destruct (String.eqb_spec (id x) (id item1)); [contradiction|].
  destruct (String.eqb_spec (id x) (id item2)); [contradiction|].
  reflexivity.
Qed.

Lemma withoutItem_In (items : list Item) (deleted : string) (x : Item) :
  In x (withoutItem items deleted) <-> In x items /\ id x <> deleted.
Proof.
  unfold withoutItem. rewrite filter_In, negb_true_iff.
  split; intros [Hin Hid]; split; try assumption.
  - intros Heq. apply String.eqb_eq in Heq. congruence.
  - destruct (String.eqb_spec (id x) deleted); congruence.
Qed.

Lemma NoDup_map_filter {A B : Type} (f : A -> B) (keep : A -> bool)
  (l : list A) :
  NoDup (map f l) -> NoDup (map f (filter keep l)).
Proof.
  induction l as [|x l IH]; simpl; intros Hnd; [constructor|].
  inversion Hnd as [|? ? Hnotin Hrest]; subst.
  destruct (keep x); simpl; [|now apply IH].
  constructor; [|now apply IH].
  intros Hin. apply Hnotin. apply in_map_iff in Hin.
  destruct Hin as [y [Hy Hyin]]. apply filter_In in Hyin.
  apply in_map_iff. exists y. tauto.
Qed.

(** The three ways [tryGetNextPair] ends inside a handler. *)
Lemma nextPair_cases (items : list Item) (u1 u2 : Q)
  (updated : list Item) (pair : PairState) :
  match tryGetNextPair items u1 u2 with
  | Null => Some (items, None)
  | Pair a b => Some (items, Some (a, b))
  | TypeError => None
  end = Some (updated, pair) ->
  updated = items /\
  forall a ob, pair = Some (a, ob) ->
               In a items /\ forall b, ob = Some b -> In b items /\ id b <> id a.
Proof.
  rewrite tryGetNextPair_getNextMatchup.
  destruct (getNextMatchup items u1 u2) as [|a b|] eqn:Hm; [| |discriminate].
  - intros [= <- <-]. split; [reflexivity | discriminate].
  - intros [= <- <-]. split; [reflexivity|].
    intros a' ob [= <- <-]. now apply (getNextMatchup_Pair_In items u1 u2).
Qed.

(** [handleDeleteItem] removes every record that carries the identifier
    and keeps the others in their order; pairwise distinct identifiers
    stay pairwise distinct; and no item of the pair then on display
    carries the deleted identifier. *)
Theorem handleDeleteItem_removes (items : list Item) (currentPair : PairState)
  (deleted : string) (u1 u2 : Q) (updated : list Item) (pair : PairState) :
  handleDeleteItem items currentPair deleted u1 u2 = Some (updated, pair) ->
  (forall x, In x updated <-> In x items /\ id x <> deleted) /\
  map id updated
  = filter (fun i => negb (String.eqb i deleted)) (map id items) /\
  (NoDup (map id items) -> NoDup (map id updated)) /\
  (forall a ob, pair = Some (a, ob) ->
     id a <> deleted /\ forall b, ob = Some b -> id b <> deleted).
Proof.
  intros H.
  assert (Hnew : forall r,
            r = Some (updated, pair) ->
            r = match tryGetNextPair (withoutItem items deleted) u1 u2 with
                | Null => Some (withoutItem items deleted, None)
                | Pair a b => Some (withoutItem items deleted, Some (a, b))
                | TypeError => None
                end ->
            updated = withoutItem items deleted /\
            forall a ob, pair = Some (a, ob) ->
              id a <> deleted /\ forall b, ob = Some b -> id b <> deleted).
  { intros r -> Hr. symmetry in Hr. apply nextPair_cases in Hr.
    destruct Hr as [-> Hp]. split; [reflexivity|].
    intros a ob Hpair. destruct (Hp a ob Hpair) as [Ha Hb]. split.
    - now apply withoutItem_In in Ha.
    - intros b Hob. destruct (Hb b Hob) as [Hbin _].
      now apply withoutItem_In in Hbin. }
  assert (Hall : updated = withoutItem items deleted /\
                 forall a ob, pair = Some (a, ob) ->
                   id a <> deleted /\
                   forall b, ob = Some b -> id b <> deleted).
  { unfold handleDeleteItem in H. cbv zeta in H.
    destruct currentPair as [[item1 item2]|].
    - destruct (String.eqb_spec (id item1) deleted) as [E1|E1].
      + now apply (Hnew _ H).
      + destruct item2 as [item2|]; [|discriminate].
        destruct (String.eqb_spec (id item2) deleted) as [E2|E2].
        * now apply (Hnew _ H).
        * injection H as <- <-. split; [reflexivity|].
          intros a ob [= <- <-]. split; [exact E1|].
          intros b [= <-]. exact E2.
    - destruct (2 <=? List.length (withoutItem items deleted))%nat.
      + now apply (Hnew _ H).
      + injection H as <- <-. split; [reflexivity | discriminate]. }
  destruct Hall as [-> Hpair].
  split; [intros x; apply withoutItem_In|].
  split.
  { unfold withoutItem. clear. induction items as [|x l IH]; simpl;
      [reflexivity|].
    destruct (String.eqb (id x) deleted); simpl; now rewrite IH. }
  split; [apply NoDup_map_filter | exact Hpair].
Qed.

End HostLists.

Section LeaderboardFacts.
Import Types App.
Context {num : Type} {N : JsNum num} {L : JsNumLaws num}.

Local Abbreviation Item := (RankedItem num).

Lemma npos_diag (x : num) : npos (nsub x x) = false.
Proof.
  destruct (npos (nsub x x)) eqn:H; [|reflexivity].
  pose proof (npos_asym x x H) as H'. congruence.
Qed.

(** The leaderboard lists every item of the pool exactly once, and no
    item is listed before an item with a strictly greater rating; in
    particular no item of the pool has a rating strictly greater than
    the first one listed. *)
Theorem leaderboard_descending (items : list Item) :
  Permutation (leaderboard items) items /\
  StronglySorted (fun a b => npos (nsub (rating b) (rating a)) = false)
    (leaderboard items) /\
  (forall top rest x,
     leaderboard items = top :: rest -> In x items ->
     npos (nsub (rating x) (rating top)) = false).
Proof.
  assert (Hsorted : StronglySorted
            (fun a b : Item => npos (nsub (rating b) (rating a)) = false)
            (leaderboard items)).
  { apply (sort_StronglySorted compareRating).
    - intros x y. unfold JsArray.notAfter, compareRating. apply npos_asym.
    - intros x y z. unfold JsArray.notAfter, compareRating.
      intros Hxy Hyz. now apply npos_trans with (rating y). }
  split; [apply sort_Permutation|]. split; [exact Hsorted|].
  intros top rest x Heq Hin.
  assert (Hx : In x (leaderboard items)).
  { apply (sort_In compareRating). exact Hin. }
  rewrite Heq in Hx, Hsorted.
  destruct Hx as [<-|Hx]; [apply npos_diag|].
  inversion Hsorted as [|? ? _ Hall]; subst.
  rewrite Forall_forall in Hall. now apply Hall.
Qed.

End LeaderboardFacts.

Section HostHandlers.
Import Types Matchmaking App RankingSystem.

Local Abbreviation ItemR := (RankedItem R).
Local Abbreviation PairR := (@App.PairState R).

Lemma processMatch_Some (fuel : nat) (item1 item2 new1 new2 : ItemR)
  (result : GlickoMath.Score) :
  processMatch fuel item1 item2 result = Some (new1, new2) ->
  exists s1 s2, new1 = withStats item1 s1 /\ new2 = withStats item2 s2.
Proof.
  unfold processMatch. cbv zeta.
  destruct (GlickoMath.calculateNewStats fuel _ _ result) as [s1|];
    [|discriminate].
  destruct (GlickoMath.calculateNewStats fuel _ _ (score2 result)) as [s2|];
    [|discriminate].
  intros [= <- <-]. now exists s1, s2.
Qed.

(** The callback of [handleVote]: the new list carries the same
    identifiers in the same order; every record in it is either the
    first item of the pair with one more match, the second with one more
    match, or a record of the old list with another identifier than the
    two; and the new pair on display consists of records of the new
    list with different identifiers. *)
Theorem voteCallback_frame (fuel : nat) (items : list ItemR)
  (item1 item2 : ItemR) (result : Vote) (u1 u2 : Q)
  (updated : list ItemR) (pair : PairR) :
  voteCallback fuel items item1 item2 result u1 u2
  = Some (Some (updated, pair)) ->
  map id updated = map id items /\
  (forall x, In x updated ->
     (id x = id item1 /\ name x = name item1 /\ image x = image item1 /\
      matches x = (matches item1 + 1)%Z) \/
     (id x = id item2 /\ name x = name item2 /\ image x = image item2 /\
      matches x = (matches item2 + 1)%Z) \/
     (In x items /\ id x <> id item1 /\ id x <> id item2)) /\
  (forall x, In x items -> id x <> id item1 -> id x <> id item2 ->
             In x updated) /\
  (forall a ob, pair = Some (a, ob) ->
     In a updated /\ forall b, ob = Some b -> In b updated /\ id b <> id a).
Proof.
  unfold voteCallback.
  destruct (processMatch fuel item1 item2 (voteScore result))
    as [[new1 new2]|] eqn:Hpm; [|discriminate].
  cbv zeta. intros H. apply Some_eq in H.
  apply nextPair_cases in H. destruct H as [-> Hpair].
  apply processMatch_Some in Hpm. destruct Hpm as [s1 [s2 [-> ->]]].
  split; [apply replaceItems_ids|]. split; [|split; [|exact Hpair]].
  - intros x Hx. apply replaceItems_In in Hx.
    destruct Hx as [->|[->|Hx]].
    + left. repeat split; reflexivity.
    + right. left. repeat split; reflexivity.
    + right. right. exact Hx.
  - intros x Hin H1 H2. now apply replaceItems_other.
Qed.

(** The callback of [handleVote] returns when [processMatch] returns
    and the first draw is in [0, 1). *)
Lemma voteCallback_returns (fuel : nat) (items : list ItemR)
  (item1 item2 new1 new2 : ItemR) (result : Vote) (u1 u2 : Q) :
  processMatch fuel item1 item2 (voteScore result) = Some (new1, new2) ->
  isRandom u1 ->
  exists pair,
    voteCallback fuel items item1 item2 result u1 u2
    = Some (Some (replaceItems items new1 new2, pair)).
Proof.
  intros Hpm Hu1. unfold voteCallback. rewrite Hpm. cbv zeta.
  rewrite tryGetNextPair_getNextMatchup.
  pose proof (getNextMatchup_no_TypeError
                (replaceItems items new1 new2) u1 u2 Hu1) as Hne.
  destruct (getNextMatchup (replaceItems items new1 new2) u1 u2);
    [eauto | eauto | contradiction].
Qed.

Section WithTrim.
Variable trim : string -> string.

Lemma NoDup_map_snoc {A B : Type} (f : A -> B) (l : list A) (x : A) :
  NoDup (map f l) -> ~ In (f x) (map f l) -> NoDup (map f (l ++ [x])).
Proof.
  intros Hnd Hnotin. rewrite map_app. simpl.
  apply NoDup_app; [exact Hnd | repeat constructor; simpl; tauto |].
  intros y Hy [<-|[]]. contradiction.
Qed.

(** [handleAddItem] does nothing for a name that trims to the empty
    string.  Otherwise the new list is the old one followed by one new
    record with the drawn identifier, rating 1500, deviation 350,
    volatility 0.06 and no matches; a pair on display stays; pairwise
    distinct identifiers stay pairwise distinct when the drawn
    identifier is new; and when no pair was on display and the list was
    not empty, a pair of two items with different identifiers is put on
    display. *)
Theorem handleAddItem_appends (items : list ItemR) (currentPair : PairR)
  (uuid newItemName : string) (newImageName : option string) (u1 u2 : Q) :
  (trim newItemName = EmptyString ->
   handleAddItem trim items currentPair uuid newItemName newImageName u1 u2
   = Some (items, currentPair)) /\
  (trim newItemName <> EmptyString ->
   forall updated pair,
     handleAddItem trim items currentPair uuid newItemName newImageName u1 u2
     = Some (updated, pair) ->
     exists item,
       updated = items ++ [item] /\
       id item = uuid /\ name item = trim newItemName /\
       rating item = 1500%R /\ rd item = 350%R /\ vol item = 0.06%R /\
       matches item = 0%Z /\
       (currentPair <> None -> pair = currentPair) /\
       (NoDup (map id items) -> ~ In uuid (map id items) ->
        NoDup (map id updated))) /\
  (trim newItemName <> EmptyString -> currentPair = None ->
   items <> [] -> NoDup (map id items) -> ~ In uuid (map id items) ->
   isRandom u1 -> isRandom u2 ->
   exists a b,
     handleAddItem trim items currentPair uuid newItemName newImageName u1 u2
     = Some (items ++ [newItem trim uuid newItemName newImageName],
             Some (a, Some b)) /\
     id a <> id b).
Proof.
  split; [|split].
  - intros Hblank. unfold handleAddItem. now rewrite Hblank.
  - intros Hname updated pair. unfold handleAddItem.
    destruct (String.eqb_spec (trim newItemName) EmptyString) as [|_];
      [contradiction|].
    cbv zeta. intros H.
    exists (newItem trim uuid newItemName newImageName).
    assert (Hup : updated
                  = items ++ [newItem trim uuid newItemName newImageName] /\
                  (currentPair <> None -> pair = currentPair)).
    { destruct currentPair as [p|].
      - injection H as <- <-. split; [reflexivity|]. reflexivity.
      - apply nextPair_cases in H. destruct H as [-> _].
        split; [reflexivity|]. intros Hn. now contradiction Hn. }
    destruct Hup as [-> Hkeep].
    repeat split; try reflexivity; try assumption.
    intros Hnd Hnew. now apply NoDup_map_snoc.
  - intros Hname -> Hne Hnd Hnew Hu1 [H0 H1]. unfold handleAddItem.
    destruct (String.eqb_spec (trim newItemName) EmptyString) as [|_];
      [contradiction|].
    cbv zeta. rewrite tryGetNextPair_getNextMatchup.
    set (updated := items ++ [newItem trim uuid newItemName newImageName]).
    assert (Hlen : (2 <= List.length updated)%nat).
    { unfold updated. rewrite length_app. simpl.
      destruct items; [congruence | simpl; lia]. }
    assert (Hnd' : NoDup (map id updated))
      by (unfold updated; now apply NoDup_map_snoc).
    destruct (candidateA_defined updated u1 Hlen Hu1) as [A [HA _]].
    destruct (get_randomIndex (closeOpponents updated A) u2 H0 H1)
      as [B HB].
    { rewrite closeOpponents_nil. now apply distinct_ids_other. }
    exists A, B.
    rewrite (getNextMatchup_unfold updated u1 u2 A Hlen HA), HB.
    split; [reflexivity|].
    apply get_In, closeOpponents_In in HB. destruct HB as [HBp _].
    apply potentialOpponents_In in HBp. destruct HBp as [_ HBid].
    congruence.
Qed.

End WithTrim.

End HostHandlers.

(** ** The first comparison of a session *)

Section FirstComparison.
Import Types Matchmaking App RankingSystem Examples.
Local Open Scope R_scope.
Variable trim : string -> string.

Local Abbreviation ItemR := (RankedItem R).

Lemma toGlickoPlayer_newItem (uuid nm : string) (img : option string) :
  toGlickoPlayer (newItem trim uuid nm img) = fresh.
Proof. reflexivity. Qed.

(** Two items in the state of a new item, the first wins. *)
Lemma processMatch_fresh_win (item1 item2 : ItemR) :
  toGlickoPlayer item1 = fresh -> toGlickoPlayer item2 = fresh ->
  exists new1 new2,
    processMatch 3 item1 item2 GlickoMath.Win = Some (new1, new2) /\
    id new1 = id item1 /\ id new2 = id item2 /\
    matches new1 = (matches item1 + 1)%Z /\
    matches new2 = (matches item2 + 1)%Z /\
    1500 < rating new1 /\ rating new2 < 1500 /\
    rating new1 - 1500 = 1500 - rating new2 /\
    rd new1 = rd new2 /\ rd new1 <= 350.
Proof.
  intros H1 H2.
  destruct (calculateNewStats_returns_equal_rating fresh fresh GlickoMath.Win
              eq_refl (proj1 fresh_small) (proj2 fresh_small))
    as [A [[_ HAhi] HA]].
  destruct (calculateNewStats_returns_equal_rating fresh fresh GlickoMath.Loss
              eq_refl (proj1 fresh_small) (proj2 fresh_small))
    as [A' [_ HA']].
  exists (withStats item1 (GlickoMath.newStatsOf fresh fresh GlickoMath.Win A)),
         (withStats item2
            (GlickoMath.newStatsOf fresh fresh GlickoMath.Loss A')).
  split.
  { unfold processMatch. cbv zeta. rewrite H1, H2.
    change (score2 GlickoMath.Win) with GlickoMath.Loss.
    now rewrite HA, HA'. }
  assert (HAA : A' = A).
  { apply calculateNewStats_Some_finalAOf in HA, HA'.
    destruct HA as [A0 [HA0 E0]]. destruct HA' as [A1 [HA1 E1]].
    rewrite finalAOf_win_loss in HA0.
    assert (E01 : A1 = A0) by congruence. subst A1.
    assert (EA : GlickoMath.vol (GlickoMath.newStatsOf fresh fresh
                                   GlickoMath.Win A)
                 = GlickoMath.vol (GlickoMath.newStatsOf fresh fresh
                                     GlickoMath.Win A0)) by now rewrite E0.
    assert (EA' : GlickoMath.vol (GlickoMath.newStatsOf fresh fresh
                                    GlickoMath.Loss A')
                  = GlickoMath.vol (GlickoMath.newStatsOf fresh fresh
                                      GlickoMath.Loss A0)) by now rewrite E1.
    cbn [GlickoMath.vol GlickoMath.newStatsOf GlickoMath.toStandardScale]
      in EA, EA'.
    apply exp_inv in EA, EA'. lra. }
  subst A'.
  cbn [withStats id matches rating rd].
  destruct (rating_step_equal fresh fresh GlickoMath.Win A eq_refl)
    as [k [Hk [Ek ->]]].
  destruct (rating_step_equal fresh fresh GlickoMath.Loss A eq_refl)
    as [k' [_ [Ek' ->]]].
  assert (k = k') by (rewrite Ek, Ek'; reflexivity). subst k'.
  change (GlickoMath.rating fresh) with 1500. simpl GlickoMath.scoreValue.
  repeat split; try reflexivity; try lra.
  change 350 with (GlickoMath.rd fresh).
  apply (rd_newStatsOf_compare fresh fresh GlickoMath.Win A); [simpl; lra|].
  rewrite vol_newStatsOf_square.
  pose proof (varianceOf_equal_rating_bound fresh fresh eq_refl) as Hv.
  pose proof (varianceOf_ge_4 fresh fresh) as Hv4.
  assert (Hexp : exp A <= 36 / 10000).
  { replace (36 / 10000) with (GlickoMath.vol fresh ^ 2) by (simpl; lra).
    rewrite <- (exp_ln (GlickoMath.vol fresh ^ 2)) by (simpl; lra).
    now apply exp_le. }
  pose proof (exp_pos A) as HeA.
  assert (Hph : 4 <= GlickoMath.phi (GlickoMath.toGlickoScale fresh) ^ 2
                <= 41 / 10).
  { simpl. unfold GlickoMath.GLICKO_SCALE. lra. }
  set (ph2 := GlickoMath.phi (GlickoMath.toGlickoScale fresh) ^ 2) in *.
  replace (GlickoMath.phi (GlickoMath.toGlickoScale fresh) ^ 4)
    with (ph2 * ph2) by (unfold ph2; ring).
  set (v := GlickoMath.varianceOf fresh fresh) in *.
  assert (Hup : v - ph2 <= 6) by lra.
  destruct (Rle_dec 0 (v - ph2)) as [Hpos|Hneg]; nra.
Qed.

(** From an empty list: adding one item shows no pair; adding a second
    one with another identifier shows the two items; and after a vote
    for the left item of that pair the list carries the same two
    identifiers in the same order, each item has one match, the left
    item of the pair is rated above 1500 and the right one below. *)
Theorem first_comparison (id1 id2 name1 name2 : string)
  (u1 u2 u3 u4 u5 u6 : Q) :
  trim name1 <> EmptyString -> trim name2 <> EmptyString ->
  id1 <> id2 -> isRandom u3 -> isRandom u4 -> isRandom u5 ->
  let x1 := newItem trim id1 name1 None in
  let x2 := newItem trim id2 name2 None in
  handleAddItem trim [] None id1 name1 None u1 u2 = Some ([x1], None) /\
  exists a b,
    handleAddItem trim [x1] None id2 name2 None u3 u4
    = Some ([x1; x2], Some (a, Some b)) /\
    ((a = x1 /\ b = x2) \/ (a = x2 /\ b = x1)) /\
    exists updated pair,
      voteCallback 3 [x1; x2] a b VoteLeft u5 u6
      = Some (Some (updated, pair)) /\
      map id updated = [id1; id2] /\
      forall x, In x updated ->
        matches x = 1%Z /\
        (id x = id a -> 1500 < rating x) /\
        (id x = id b -> rating x < 1500).
Proof.
  intros Hn1 Hn2 Hid Hu3 Hu4 Hu5 x1 x2.
  split.
  { unfold handleAddItem.
    destruct (String.eqb_spec (trim name1) EmptyString); [contradiction|].
    reflexivity. }
  assert (Hadd : handleAddItem trim [x1] None id2 name2 None u3 u4
                 = match getNextMatchup [x1; x2] u3 u4 with
                   | Null => Some ([x1; x2], None)
                   | Pair a b => Some ([x1; x2], Some (a, b))
                   | TypeError => None
                   end).
  { unfold handleAddItem.
    destruct (String.eqb_spec (trim name2) EmptyString); [contradiction|].
    cbv zeta. now rewrite tryGetNextPair_getNextMatchup. }
  assert (Hx : id x1 <> id x2) by exact Hid.
  assert (Hvote : forall a b,
            (a = x1 /\ b = x2) \/ (a = x2 /\ b = x1) ->
            exists updated pair,
              voteCallback 3 [x1; x2] a b VoteLeft u5 u6
              = Some (Some (updated, pair)) /\
              map id updated = [id1; id2] /\
              forall x, In x updated ->
                matches x = 1%Z /\
                (id x = id a -> 1500 < rating x) /\
                (id x = id b -> rating x < 1500)).
  { intros a b Hab.
    assert (Ha : toGlickoPlayer a = fresh)
      by (destruct Hab as [[-> _]|[-> _]]; reflexivity).
    assert (Hb : toGlickoPlayer b = fresh)
      by (destruct Hab as [[_ ->]|[_ ->]]; reflexivity).
    assert (Hma : matches a = 0%Z)
      by (destruct Hab as [[-> _]|[-> _]]; reflexivity).
    assert (Hmb : matches b = 0%Z)
      by (destruct Hab as [[_ ->]|[_ ->]]; reflexivity).
    assert (Hab_id : id a <> id b)
      by (destruct Hab as [[-> ->]|[-> ->]]; simpl; congruence).
    destruct (processMatch_fresh_win a b Ha Hb)
      as [n1 [n2 [Hpm [Hi1 [Hi2 [Hm1 [Hm2 [Hr1 [Hr2 _]]]]]]]]].
    destruct (voteCallback_returns 3 [x1; x2] a b n1 n2 VoteLeft u5 u6
                Hpm Hu5) as [pair Hv].
    exists (replaceItems [x1; x2] n1 n2), pair.
    split; [exact Hv|]. split; [apply replaceItems_ids|].
    intros x Hin. apply replaceItems_In in Hin.
    destruct Hin as [->|[->|[Hin [Hne1 Hne2]]]].
    - rewrite Hm1, Hma, Hi1. split; [lia|].
      split; [intros _; exact Hr1 | intros He; congruence].
    - rewrite Hm2, Hmb, Hi2. split; [lia|].
      split; [intros He; congruence | intros _; exact Hr2].
    - exfalso. rewrite Hi1 in Hne1. rewrite Hi2 in Hne2.
      simpl in Hin.
      destruct Hab as [[-> ->]|[-> ->]];
        destruct Hin as [<-|[<-|[]]]; congruence. }
  destruct (two_items_pair x1 x2 u3 u4 Hx Hu3 Hu4) as [Hp|Hp];
    rewrite Hp in Hadd.
  - exists x1, x2. split; [exact Hadd|]. split; [now left|].
    apply Hvote. now left.
  - exists x2, x1. split; [exact Hadd|]. split; [now right|].
    apply Hvote. now right.
Qed.

End FirstComparison.

(** ** The further properties on concrete data *)

Section ExtraExamples.
Import Types Matchmaking App RankingSystem Examples.

Lemma getNextMatchup_two_items_witness :
  getNextMatchup [itemQ "a" 1500 350 0; itemQ "b" 1560 200 4]
    (1 # 2) (1 # 3)
  = Pair (itemQ "a" 1500 350 0) (Some (itemQ "b" 1560 200 4)) \/
  getNextMatchup [itemQ "a" 1500 350 0; itemQ "b" 1560 200 4]
    (1 # 2) (1 # 3)
  = Pair (itemQ "b" 1560 200 4) (Some (itemQ "a" 1500 350 0)).
Proof.
  apply (getNextMatchup_two_items
           (itemQ "a" 1500 350 0) (itemQ "b" 1560 200 4)).
  - discriminate.
  - exact half_isRandom.
  - exact third_isRandom.
Defined.

Lemma least_observed_first_witness :
  exists ob,
    getNextMatchup ([] ++ itemQ "a" 1500 350 0
                       :: [itemQ "b" 1560 200 4; itemQ "c" 2400 90 9])
      0 (1 # 2)
    = Pair (itemQ "a" 1500 350 0) ob.
Proof.
  apply (proj2 (@least_observed_first Q QNum QNum_laws []
                  [itemQ "b" 1560 200 4; itemQ "c" 2400 90 9]
                  (itemQ "a" 1500 350 0) 0 (1 # 2)
                  ltac:(simpl; intros y [<-|[<-|[]]]; simpl; lia))).
  - simpl. lia.
  - exact zero_isRandom.
  - reflexivity.
Defined.

Lemma leaderboard_descending_witness :
  Permutation (leaderboard poolDistinct) poolDistinct /\
  StronglySorted (fun a b => npos (nsub (rating b) (rating a)) = false)
    (leaderboard poolDistinct) /\
  (forall top rest x,
     leaderboard poolDistinct = top :: rest -> In x poolDistinct ->
     npos (nsub (rating x) (rating top)) = false).
Proof.
  exact (@leaderboard_descending Q QNum QNum_laws poolDistinct).
Defined.

Example leaderboard_poolDistinct :
  map id (leaderboard poolDistinct) = ["c"; "b"; "a"]%string.
Proof. reflexivity. Qed.

Lemma handleDeleteItem_removes_witness :
  exists updated pair,
    handleDeleteItem poolDistinct
      (Some (itemQ "a" 1500 350 0, Some (itemQ "b" 1560 200 4)))
      "b" 0 (1 # 2)
    = Some (updated, pair) /\
    (forall x, In x updated <-> In x poolDistinct /\ id x <> "b"%string) /\
    (forall a ob, pair = Some (a, ob) ->
       id a <> "b"%string /\
       forall b, ob = Some b -> id b <> "b"%string).
Proof.
  assert (H : handleDeleteItem poolDistinct
                (Some (itemQ "a" 1500 350 0, Some (itemQ "b" 1560 200 4)))
                "b" 0 (1 # 2)
              = Some ([itemQ "a" 1500 350 0; itemQ "c" 2400 90 9],
                      Some (itemQ "a" 1500 350 0,
                            Some (itemQ "c" 2400 90 9))))
    by reflexivity.
  eexists. eexists. split; [exact H|].
  destruct (handleDeleteItem_removes _ _ _ _ _ _ _ H)
    as [H1 [_ [_ H4]]].
  split; assumption.
Defined.

Lemma voteCallback_frame_witness :
  exists updated pair,
    voteCallback 3 [itemR "a" fresh 0; itemR "b" fresh 0]
      (itemR "a" fresh 0) (itemR "b" fresh 0) VoteLeft 0 (1 # 2)
    = Some (Some (updated, pair)) /\
    map id updated = ["a"; "b"]%string.
Proof.
  destruct (processMatch_fresh_win (itemR "a" fresh 0) (itemR "b" fresh 0)
              eq_refl eq_refl) as [n1 [n2 [Hpm _]]].
  destruct (voteCallback_returns 3 [itemR "a" fresh 0; itemR "b" fresh 0]
              _ _ n1 n2 VoteLeft 0 (1 # 2) Hpm zero_isRandom)
    as [pair Hv].
  eexists. eexists. split; [exact Hv|].
  exact (proj1 (voteCallback_frame _ _ _ _ _ _ _ _ _ Hv)).
Defined.

Lemma handleAddItem_appends_witness :
  exists a b,
    handleAddItem (fun s => s) [itemR "a" fresh 3] None "b" "second" None
      0 (1 # 2)
    = Some ([itemR "a" fresh 3]
              ++ [newItem (fun s => s) "b" "second" None],
            Some (a, Some b)) /\
    id a <> id b.
Proof.
  apply (proj2 (proj2 (handleAddItem_appends (fun s => s)
                         [itemR "a" fresh 3] None "b" "second" None
                         0 (1 # 2)))).
  - discriminate.
  - reflexivity.
  - discriminate.
  - repeat constructor. simpl. tauto.
  - simpl. intros [H|[]]. discriminate.
  - exact zero_isRandom.
  - exact half_isRandom.
Defined.

Lemma first_comparison_witness :
  exists a b,
    handleAddItem (fun s => s)
      [newItem (fun s => s) "a" "first" None] None "b" "second" None
      0 (1 # 2)
    = Some ([newItem (fun s => s) "a" "first" None;
             newItem (fun s => s) "b" "second" None],
            Some (a, Some b)).
Proof.
  destruct (first_comparison (fun s => s) "a" "b" "first" "second"
              0 0 0 (1 # 2) 0 0) as [_ [a [b [H _]]]].
  - discriminate.
  - discriminate.
  - discriminate.
  - exact zero_isRandom.
  - exact half_isRandom.
  - exact zero_isRandom.
  - exists a, b. exact H.
Defined.

End ExtraExamples.
